(** * Fibonacci variants of package [fib]: a shallow embedding and its proofs

    The Go package computes the n-th Fibonacci number in six ways
    ([FibRecursive], [FibRecursiveCache], [FibTailRecursive], [FibIterative],
    [FibPowerMatrix], [FibPowerMatrixRecursive]).  Go's [int] is modelled as a
    [Z] kept inside the 64-bit two's-complement range, every arithmetic
    operation written with its wrap-around.  Recursion and loops take a
    [fuel] bound; running out of it is a result of its own, distinct from a
    Go run-time panic, so that "the call returns" is a statement one proves. *)

From Stdlib Require Import ZArith Lia Bool Wellfounded.
From stdpp Require Import base gmap list.

Local Open Scope Z_scope.

(** ** Go's [int]: 64-bit signed, silent wrap-around *)

Module Int64.

Definition modulus : Z := 2 ^ 64.
Definition half_modulus : Z := 2 ^ 63.
Definition int_min : Z := - 2 ^ 63.
Definition int_max : Z := 2 ^ 63 - 1.

Definition in_range (z : Z) : Prop := int_min <= z <= int_max.

(** Reduction of a mathematical integer to the representable one. *)
Definition wrap (z : Z) : Z := (z + half_modulus) mod modulus - half_modulus.

Definition add64 (a b : Z) : Z := wrap (a + b).
Definition sub64 (a b : Z) : Z := wrap (a - b).
Definition mul64 (a b : Z) : Z := wrap (a * b).
(** Go's [/] and [%] truncate toward zero. *)
Definition quot64 (a b : Z) : Z := wrap (Z.quot a b).
Definition rem64 (a b : Z) : Z := wrap (Z.rem a b).

End Int64.
Import Int64.

(** ** Outcome of running a Go function *)

(** The run-time panics the package can raise. *)
Inductive runtime_error : Type :=
| IndexOutOfRange     (* "index out of range [i] with length n" *)
| LenOutOfRange       (* "makeslice: len out of range" *)
| NilDereference.     (* a pointer that addresses no variable *)

Inductive result (A : Type) : Type :=
| Ok (a : A)                    (* the call returns [a] *)
| Panic (e : runtime_error)     (* the call panics *)
| OutOfFuel.                    (* the fuel given to the model was not enough *)
Arguments Ok {A} a.
Arguments Panic {A} e.
Arguments OutOfFuel {A}.

Definition res_bind {A B : Type} (c : result A) (k : A -> result B) : result B :=
  match c with
  | Ok a => k a
  | Panic e => Panic e
  | OutOfFuel => OutOfFuel
  end.

(** A computation over a mutable store of type [S]. *)
Definition comp (S A : Type) : Type := S -> result (A * S).

Definition ret {S A : Type} (a : A) : comp S A := fun s => Ok (a, s).

Definition bind {S A B : Type} (c : comp S A) (k : A -> comp S B) : comp S B :=
  fun s =>
    match c s with
    | Ok (a, s') => k a s'
    | Panic e => Panic e
    | OutOfFuel => OutOfFuel
    end.

Definition out_of_fuel {S A : Type} : comp S A := fun _ => OutOfFuel.

Declare Scope go_scope.
Delimit Scope go_scope with go.
Notation "'let?' x ':=' c 'in' k" := (res_bind c (fun x => k))
  (at level 10, x name, c at level 100, k at level 200) : go_scope.
Notation "'let*' x ':=' c 'in' k" := (bind c (fun x => k))
  (at level 10, x name, c at level 100, k at level 200) : go_scope.
Notation "'run' c 'then' k" := (bind c (fun _ => k))
  (at level 10, c at level 100, k at level 200) : go_scope.
Local Open Scope go_scope.

(** ** fib.go: the scalar variants *)

(** [func FibRecursive(n int) int] *)
Fixpoint FibRecursive (fuel : nat) (n : Z) : result Z :=
  match fuel with
  | O => OutOfFuel
  | S fuel =>
      if n <? 2 then Ok n
      else
        let? a := FibRecursive fuel (sub64 n 1) in
        let? b := FibRecursive fuel (sub64 n 2) in
        Ok (add64 a b)
  end.

(** [func fibTailRecursive(n, first, second int) int] *)
Fixpoint fibTailRecursive (fuel : nat) (n first second : Z) : result Z :=
  match fuel with
  | O => OutOfFuel
  | S fuel =>
      if n =? 0 then Ok first
      else fibTailRecursive fuel (sub64 n 1) second (add64 first second)
  end.

(** [func FibTailRecursive(n int) int] *)
Definition FibTailRecursive (fuel : nat) (n : Z) : result Z :=
  fibTailRecursive fuel n 0 1.

(** The [for i := 0; i < n-1; i++] loop of [FibIterative]; one unit of fuel
    per evaluation of the loop condition. *)
Fixpoint FibIterative_loop (fuel : nat) (n i first second : Z) : result Z :=
  match fuel with
  | O => OutOfFuel
  | S fuel =>
      if i <? sub64 n 1 then
        let temp := second in
        let second := add64 first second in
        let first := temp in
        FibIterative_loop fuel n (add64 i 1) first second
      else Ok second
  end.

(** [func FibIterative(n int) int] *)
Definition FibIterative (fuel : nat) (n : Z) : result Z :=
  let first := 0 in
  let second := 1 in
  FibIterative_loop fuel n 0 first second.

(** ** fib.go: the cached variant

    The slice behind [cache *[]int] is threaded as the store; indexing
    outside [0 .. len-1] panics, as in Go. *)

Definition slice_get (i : Z) : comp (list Z) Z :=
  fun s =>
    if (0 <=? i) && (i <? Z.of_nat (length s)) then
      match s !! Z.to_nat i with
      | Some v => Ok (v, s)
      | None => Panic IndexOutOfRange
      end
    else Panic IndexOutOfRange.

Definition slice_set (i v : Z) : comp (list Z) unit :=
  fun s =>
    if (0 <=? i) && (i <? Z.of_nat (length s)) then
      Ok (tt, <[Z.to_nat i := v]> s)
    else Panic IndexOutOfRange.

(** The longest [[]int] the Go runtime agrees to make.  The check in the
    runtime's [makeslice] refuses a slice whose cells, 8 bytes each, would
    take more than its allocation limit, 2^48 bytes on 64-bit Linux: that is
    a length above 2^45.  The constant is the runtime's, not this package's. *)
Definition max_slice_len : Z := 2 ^ 45.

(** [make([]int, len, len)]: a zeroed slice.  A negative length and a length
    above [max_slice_len] both panic with "makeslice: len out of range".
    Whether the machine has the memory for a slice the runtime accepts is
    not part of the model. *)
Definition make_slice (len : Z) : result (list Z) :=
  if (len <? 0) || (max_slice_len <? len) then Panic LenOutOfRange
  else Ok (replicate (Z.to_nat len) 0).

(** [func fibRecursiveCache(n int, cache *[]int)] *)
Fixpoint fibRecursiveCache (fuel : nat) (n : Z) : comp (list Z) unit :=
  match fuel with
  | O => out_of_fuel
  | S fuel =>
      if n <? 2 then
        run slice_set 0 0 then
        run slice_set 1 1 then
        ret tt
      else
        run fibRecursiveCache fuel (sub64 n 1) then
        let* a := slice_get (sub64 n 1) in
        let* b := slice_get (sub64 n 2) in
        slice_set n (add64 a b)
  end.

(** [func FibRecursiveCache(n int) int] *)
Definition FibRecursiveCache (fuel : nat) (n : Z) : result Z :=
  let? cache := make_slice (add64 n 1) in
  let? filled := fibRecursiveCache fuel n cache in
  let? read := slice_get n (snd filled) in
  Ok (fst read).

(** ** The matrix variants ([FibPowerMatrix], [FibPowerMatrixRecursive])

    [[2][2]int] is a value of two rows of two ints.  The functions receive
    [*[2][2]int] pointers and write through them, and [fibPowerRecursive]
    calls [fibMultiply(F, F)] with both pointers equal, so the matrices live
    in a store addressed by pointers and every cell write goes to the store. *)

Record row : Type := Row { c0 : Z; c1 : Z }.
Record arr22 : Type := Arr { r0 : row; r1 : row }.

(** [a[i][j]] for the constant indices 0 and 1. *)
Definition aget (a : arr22) (i j : nat) : Z :=
  let r := match i with O => r0 a | _ => r1 a end in
  match j with O => c0 r | _ => c1 r end.

(** The array [a] after [a[i][j] = v]. *)
Definition aset (a : arr22) (i j : nat) (v : Z) : arr22 :=
  let upd (r : row) := match j with O => Row v (c1 r) | _ => Row (c0 r) v end in
  match i with
  | O => Arr (upd (r0 a)) (r1 a)
  | _ => Arr (r0 a) (upd (r1 a))
  end.

Abbreviation ptr := nat (only parsing).
Abbreviation heap := (gmap nat arr22) (only parsing).

(** A local variable whose address is taken: a fresh cell of the store. *)
Definition alloc (v : arr22) : comp heap ptr :=
  fun h => let p := fresh (dom h) in Ok (p, <[p := v]> h).

(** [*p] *)
Definition load (p : ptr) : comp heap arr22 :=
  fun h => match h !! p with
           | Some a => Ok (a, h)
           | None => Panic NilDereference
           end.

(** The cell write [p[i][j] = v] through the pointer [p]. *)
Definition store_cell (p : ptr) (i j : nat) (v : Z) : comp heap unit :=
  fun h => match h !! p with
           | Some a => Ok (tt, <[p := aset a i j v]> h)
           | None => Panic NilDereference
           end.

(** The literal [[2][2]int{[2]int{1, 1}, [2]int{1, 0}}]. *)
Definition base_matrix : arr22 := Arr (Row 1 1) (Row 1 0).

(** [func fibMultiply(F *[2][2]int, M *[2][2]int)] *)
Definition fibMultiply (F M : ptr) : comp heap unit :=
  let* f := load F in
  let* m := load M in
  let x := add64 (mul64 (aget f 0 0) (aget m 0 0)) (mul64 (aget f 0 1) (aget m 1 0)) in
  let y := add64 (mul64 (aget f 0 0) (aget m 0 1)) (mul64 (aget f 0 1) (aget m 1 1)) in
  let z := add64 (mul64 (aget f 1 0) (aget m 0 0)) (mul64 (aget f 1 1) (aget m 1 0)) in
  let w := add64 (mul64 (aget f 1 0) (aget m 0 1)) (mul64 (aget f 1 1) (aget m 1 1)) in
  run store_cell F 0 0 x then
  run store_cell F 0 1 y then
  run store_cell F 1 0 z then
  store_cell F 1 1 w.

(** The [for i := 2; i <= n; i++] loop of [fibPower]. *)
Fixpoint fibPower_loop (fuel : nat) (F M : ptr) (n i : Z) : comp heap unit :=
  match fuel with
  | O => out_of_fuel
  | S fuel =>
      if i <=? n then
        run fibMultiply F M then
        fibPower_loop fuel F M n (add64 i 1)
      else ret tt
  end.

(** [func fibPower(F *[2][2]int, n int)] *)
Definition fibPower (fuel : nat) (F : ptr) (n : Z) : comp heap unit :=
  let* M := alloc base_matrix in
  fibPower_loop fuel F M n 2.

(** [func FibPowerMatrix(n int) int] *)
Definition FibPowerMatrix (fuel : nat) (n : Z) : comp heap Z :=
  let* F := alloc base_matrix in
  if n =? 0 then ret 0
  else
    run fibPower fuel F (sub64 n 1) then
    let* f := load F in
    ret (aget f 0 0).

(** [func fibPowerRecursive(F *[2][2]int, n int)] *)
Fixpoint fibPowerRecursive (fuel : nat) (F : ptr) (n : Z) : comp heap unit :=
  match fuel with
  | O => out_of_fuel
  | S fuel =>
      if (n =? 0) || (n =? 1) then ret tt
      else
        let* M := alloc base_matrix in
        run fibPowerRecursive fuel F (quot64 n 2) then
        run fibMultiply F F then
        if negb (rem64 n 2 =? 0) then fibMultiply F M
        else ret tt
  end.

(** [func FibPowerMatrixRecursive(n int) int] *)
Definition FibPowerMatrixRecursive (fuel : nat) (n : Z) : comp heap Z :=
  let* F := alloc base_matrix in
  if n =? 0 then ret 0
  else
    run fibPowerRecursive fuel F (sub64 n 1) then
    let* f := load F in
    ret (aget f 0 0).

(** The value a store computation returns, the final store dropped. *)
Definition value {S A : Type} (r : result (A * S)) : result A :=
  let? p := r in Ok (fst p).

(** ** The mathematical sequence, F(0) = 0, F(1) = 1, F(n) = F(n-1) + F(n-2) *)

Fixpoint fib (n : nat) : Z :=
  match n with
  | O => 0
  | S m => match m with
           | O => 1
           | S k => fib m + fib k
           end
  end.

Definition F (n : Z) : Z := fib (Z.to_nat n).

(** The exact 2x2 product and power over [Z], for comparison. *)
Definition mat_mul (f m : arr22) : arr22 :=
  Arr (Row (aget f 0 0 * aget m 0 0 + aget f 0 1 * aget m 1 0)
           (aget f 0 0 * aget m 0 1 + aget f 0 1 * aget m 1 1))
      (Row (aget f 1 0 * aget m 0 0 + aget f 1 1 * aget m 1 0)
           (aget f 1 0 * aget m 0 1 + aget f 1 1 * aget m 1 1)).

Definition mat_id : arr22 := Arr (Row 1 0) (Row 0 1).

Fixpoint mat_pow (m : arr22) (k : nat) : arr22 :=
  match k with
  | O => mat_id
  | S k => mat_mul (mat_pow m k) m
  end.

Definition wrap_mat (a : arr22) : arr22 :=
  Arr (Row (wrap (aget a 0 0)) (wrap (aget a 0 1)))
      (Row (wrap (aget a 1 0)) (wrap (aget a 1 1))).

(** The pair iteration, used to evaluate [fib] at large arguments. *)
Definition fib_step (p : Z * Z) : Z * Z := (snd p, fst p + snd p).

(** The call graph of [fibPowerRecursive] on non-negative exponents: a call
    with exponent [n] outside the base cases calls itself once, with [n/2]. *)
Definition fibPowerRecursive_calls (m n : Z) : Prop :=
  0 <= n <= int_max /\ (n =? 0) || (n =? 1) = false /\ m = quot64 n 2.

(** Small runs of the embedding. *)
Example FibRecursive_10 : FibRecursive 20 10 = Ok 55.
Proof. reflexivity. Qed.
Example FibTailRecursive_16 : FibTailRecursive 20 16 = Ok 987.
Proof. reflexivity. Qed.
Example FibIterative_20 : FibIterative 30 20 = Ok 6765.
Proof. reflexivity. Qed.
Example FibRecursiveCache_10 : FibRecursiveCache 20 10 = Ok 55.
Proof. reflexivity. Qed.
Example FibPowerMatrix_16 : value (FibPowerMatrix 20 16 ∅) = Ok 987.
Proof. vm_compute. reflexivity. Qed.
Example FibPowerMatrixRecursive_20 : value (FibPowerMatrixRecursive 20 20 ∅) = Ok 6765.
Proof. vm_compute. reflexivity. Qed.

(** * Proofs *)

(** ** Wrap-around arithmetic *)

Module Int64Facts.

Lemma modulus_pos : 0 < modulus.
Proof. reflexivity. Qed.

Lemma modulus_split : modulus = 2 * half_modulus.
Proof. reflexivity. Qed.

Lemma half_modulus_val : half_modulus = 9223372036854775808.
Proof. reflexivity. Qed.

Lemma int_bounds : int_min = - half_modulus /\ int_max = half_modulus - 1.
Proof. split; reflexivity. Qed.

(** [wrap] moves its argument by a multiple of 2^64 ... *)
Lemma wrap_spec z : exists k, wrap z = z + k * modulus.
Proof.
  exists (- ((z + half_modulus) / modulus)). unfold wrap.
  pose proof (Z.div_mod (z + half_modulus) modulus) as D.
  pose proof modulus_pos. lia.
Qed.

(** ... into the representable range. *)
Lemma wrap_range z : in_range (wrap z).
Proof.
  unfold in_range, wrap. destruct int_bounds as [-> ->].
  pose proof (Z.mod_pos_bound (z + half_modulus) modulus modulus_pos).
  pose proof modulus_split. lia.
Qed.

Lemma wrap_small z : in_range z -> wrap z = z.
Proof.
  unfold in_range, wrap. destruct int_bounds as [-> ->]. intros Hz.
  rewrite Z.mod_small; [lia|]. pose proof modulus_split. lia.
Qed.

Lemma wrap_congr a b k : a = b + k * modulus -> wrap a = wrap b.
Proof.
  intros ->. unfold wrap.
  replace (b + k * modulus + half_modulus) with (b + half_modulus + k * modulus) by lia.
  now rewrite Z_mod_plus_full.
Qed.

Lemma wrap_add a b : wrap (wrap a + wrap b) = wrap (a + b).
Proof.
  destruct (wrap_spec a) as [ka ->]. destruct (wrap_spec b) as [kb ->].
  apply (wrap_congr _ _ (ka + kb)). lia.
Qed.

Lemma wrap_mul a b : wrap (wrap a * wrap b) = wrap (a * b).
Proof.
  destruct (wrap_spec a) as [ka ->]. destruct (wrap_spec b) as [kb ->].
  apply (wrap_congr _ _ (ka * b + kb * a + ka * kb * modulus)). lia.
Qed.

Lemma wrap_mod z : wrap z mod modulus = z mod modulus.
Proof.
  destruct (wrap_spec z) as [k ->]. apply Z_mod_plus_full.
Qed.

(** A wrapped value equals the exact one only if the exact one fits. *)
Lemma wrap_exact_iff z : wrap z = z <-> in_range z.
Proof.
  split; [intros <-; apply wrap_range | apply wrap_small].
Qed.

Lemma add64_wrap a b : add64 (wrap a) (wrap b) = wrap (a + b).
Proof. apply wrap_add. Qed.

(** The one dot product [fibMultiply] computes per cell. *)
Lemma dot64 a b c d :
  add64 (mul64 a b) (mul64 c d) = wrap (a * b + c * d).
Proof. unfold add64, mul64. apply wrap_add. Qed.

Lemma dot64_wrap a b c d :
  wrap (wrap a * wrap b + wrap c * wrap d) = wrap (a * b + c * d).
Proof.
  rewrite <- wrap_add, !wrap_mul. apply wrap_add.
Qed.

Lemma sub64_small a b : in_range (a - b) -> sub64 a b = a - b.
Proof. apply wrap_small. Qed.

Lemma add64_small a b : in_range (a + b) -> add64 a b = a + b.
Proof. apply wrap_small. Qed.

Lemma in_range_nonneg z : 0 <= z <= int_max -> in_range z.
Proof. unfold in_range. destruct int_bounds as [-> ->]. rewrite half_modulus_val. lia. Qed.

End Int64Facts.
Import Int64Facts.

(** ** The Fibonacci sequence *)

Module FibFacts.

Lemma fib_SS n : fib (S (S n)) = fib (S n) + fib n.
Proof. reflexivity. Qed.

Lemma fib_nonneg n : 0 <= fib n /\ 0 <= fib (S n).
Proof.
  induction n as [|n [IH0 IH1]]; [cbn; lia|].
  split; [assumption | rewrite fib_SS; lia].
Qed.

Lemma fib_le_S n : fib n <= fib (S n).
Proof.
  destruct n as [|n]; [cbn; lia|].
  rewrite fib_SS. destruct (fib_nonneg n). lia.
Qed.

Lemma fib_mono m n : (m <= n)%nat -> fib m <= fib n.
Proof.
  induction 1 as [|n _ IH]; [lia|].
  pose proof (fib_le_S n). lia.
Qed.

Lemma fib_iter n : Nat.iter n fib_step (0, 1) = (fib n, fib (S n)).
Proof.
  induction n as [|n IH]; [reflexivity|].
  rewrite Nat.iter_succ, IH. unfold fib_step. cbn [fst snd].
  rewrite fib_SS. f_equal. lia.
Qed.

Lemma pair_eq_inv {A B : Type} (a a' : A) (b b' : B) :
  (a, b) = (a', b') -> a = a' /\ b = b'.
Proof.
  intros H. split; [exact (f_equal fst H) | exact (f_equal snd H)].
Qed.

(** Values are obtained through the pair iteration: unfolding [fib] itself
    at such arguments takes exponentially many steps. *)
Lemma fib_92_93 : fib 92 = 7540113804746346429 /\ fib 93 = 12200160415121876738.
Proof.
  assert (Nat.iter 92 fib_step (0, 1) = (7540113804746346429, 12200160415121876738))
    as E by (vm_compute; reflexivity).
  rewrite fib_iter in E. exact (pair_eq_inv _ _ _ _ E).
Qed.

Lemma F_0 : F 0 = 0.
Proof. reflexivity. Qed.

Lemma F_1 : F 1 = 1.
Proof. reflexivity. Qed.

Lemma F_rec n : 2 <= n -> F n = F (n - 1) + F (n - 2).
Proof.
  intros Hn. unfold F.
  replace (Z.to_nat n) with (S (S (Z.to_nat (n - 2)))) by lia.
  replace (Z.to_nat (n - 1)) with (S (Z.to_nat (n - 2))) by lia.
  apply fib_SS.
Qed.

Lemma F_of_nat k : F (Z.of_nat k) = fib k.
Proof. unfold F. now rewrite Nat2Z.id. Qed.

Lemma F_92 : F 92 = 7540113804746346429.
Proof. rewrite <- (proj1 fib_92_93). exact (F_of_nat 92). Qed.

Lemma F_93 : F 93 = 12200160415121876738.
Proof. rewrite <- (proj2 fib_92_93). exact (F_of_nat 93). Qed.

Lemma F_nonneg n : 0 <= F n.
Proof. unfold F. apply fib_nonneg. Qed.

Lemma F_mono m n : m <= n -> F m <= F n.
Proof. intros H. unfold F. apply fib_mono. lia. Qed.

(** F(0) .. F(92) fit a 64-bit signed integer; F(93) and beyond do not. *)
Lemma F_fits n : n <= 92 -> in_range (F n).
Proof.
  intros Hn. pose proof (F_nonneg n). pose proof (F_mono n 92 Hn) as H92.
  rewrite F_92 in H92.
  apply in_range_nonneg. change int_max with 9223372036854775807. lia.
Qed.

Lemma F_overflows n : 93 <= n -> int_max < F n.
Proof.
  intros Hn. pose proof (F_mono 93 n Hn) as H93.
  rewrite F_93 in H93.
  change int_max with 9223372036854775807. lia.
Qed.

Lemma wrap_F_exact n : n <= 92 -> wrap (F n) = F n.
Proof. intros. now apply wrap_small, F_fits. Qed.

Lemma wrap_F_differs n : 93 <= n -> wrap (F n) <> F n.
Proof.
  intros Hn E. apply wrap_exact_iff in E. destruct E as [_ E].
  pose proof (F_overflows n Hn). lia.
Qed.

End FibFacts.
Import FibFacts.

(** ** The scalar variants compute the sequence modulo 2^64 *)

Module Scalar.

Lemma wrap_fib_0 : wrap (fib 0) = 0.
Proof. reflexivity. Qed.

Lemma wrap_fib_1 : wrap (fib 1) = 1.
Proof. reflexivity. Qed.

Lemma pred_in_range n j : 0 <= j <= 2 -> j <= n <= int_max -> sub64 n j = n - j.
Proof.
  intros Hj Hn. apply sub64_small, in_range_nonneg. lia.
Qed.

Lemma succ_in_range i : 0 <= i < int_max -> add64 i 1 = i + 1.
Proof.
  intros Hi. apply add64_small, in_range_nonneg. lia.
Qed.

Lemma add64_fib k : add64 (wrap (fib k)) (wrap (fib (S k))) = wrap (fib (S (S k))).
Proof. rewrite add64_wrap, fib_SS. f_equal. lia. Qed.

(** The accumulator pair of the tail-recursive helper walks the sequence. *)
Lemma fibTailRecursive_walk fuel : forall n k,
  0 <= n <= int_max -> (Z.to_nat n < fuel)%nat ->
  fibTailRecursive fuel n (wrap (fib k)) (wrap (fib (S k)))
  = Ok (wrap (fib (k + Z.to_nat n))).
Proof.
  induction fuel as [|fuel IH]; intros n k Hn Hf; [lia|].
  cbn [fibTailRecursive]. destruct (n =? 0) eqn:E.
  - apply Z.eqb_eq in E. subst n. now rewrite Nat.add_0_r.
  - apply Z.eqb_neq in E.
    rewrite pred_in_range by lia. rewrite add64_fib.
    rewrite IH by lia. do 3 f_equal. lia.
Qed.

Lemma FibTailRecursive_correct fuel n :
  0 <= n <= int_max -> (Z.to_nat n < fuel)%nat ->
  FibTailRecursive fuel n = Ok (wrap (F n)).
Proof.
  intros Hn Hf. unfold FibTailRecursive.
  rewrite <- wrap_fib_0, <- wrap_fib_1.
  now rewrite fibTailRecursive_walk.
Qed.

(** Loop invariant of [FibIterative]: entering the test with counter [k],
    [first] and [second] hold F(k) and F(k+1). *)
Lemma FibIterative_loop_inv fuel : forall n k,
  1 <= n <= int_max -> Z.of_nat k <= n - 1 ->
  (Z.to_nat (n - 1) - k < fuel)%nat ->
  FibIterative_loop fuel n (Z.of_nat k) (wrap (fib k)) (wrap (fib (S k)))
  = Ok (wrap (F n)).
Proof.
  induction fuel as [|fuel IH]; intros n k Hn Hk Hf; [lia|].
  cbn [FibIterative_loop]. rewrite pred_in_range by lia.
  destruct (Z.of_nat k <? n - 1) eqn:E.
  - apply Z.ltb_lt in E. cbv zeta.
    rewrite succ_in_range by lia. rewrite add64_fib.
    replace (Z.of_nat k + 1) with (Z.of_nat (S k)) by lia.
    apply IH; lia.
  - apply Z.ltb_ge in E. unfold F.
    replace (Z.to_nat n) with (S k) by lia. reflexivity.
Qed.

Lemma FibIterative_correct fuel n :
  1 <= n <= int_max -> (Z.to_nat n <= fuel)%nat ->
  FibIterative fuel n = Ok (wrap (F n)).
Proof.
  intros Hn Hf. unfold FibIterative. cbv zeta.
  rewrite <- wrap_fib_0, <- wrap_fib_1.
  apply (FibIterative_loop_inv fuel n 0%nat); lia.
Qed.

(** With [n = 0] the bound [n-1] is [-1]: the body never runs. *)
Lemma FibIterative_zero fuel : FibIterative (S fuel) 0 = Ok 1.
Proof. reflexivity. Qed.

Lemma FibRecursive_correct fuel : forall n,
  0 <= n <= int_max -> (Z.to_nat n < fuel)%nat ->
  FibRecursive fuel n = Ok (wrap (F n)).
Proof.
  induction fuel as [|fuel IH]; intros n Hn Hf; [lia|].
  cbn [FibRecursive]. destruct (n <? 2) eqn:E.
  - apply Z.ltb_lt in E. f_equal.
    assert (n = 0 \/ n = 1) as [-> | ->] by lia; reflexivity.
  - apply Z.ltb_ge in E.
    rewrite !pred_in_range by lia.
    rewrite !IH by lia. cbn [res_bind].
    rewrite add64_wrap, (F_rec n) by lia. reflexivity.
Qed.

End Scalar.

(** ** The cached variant *)

Module Cache.

Lemma slice_set_ok i v (s : list Z) :
  0 <= i < Z.of_nat (length s) ->
  slice_set i v s = Ok (tt, <[Z.to_nat i := v]> s).
Proof.
  intros [H0 H1]. unfold slice_set.
  apply Z.leb_le in H0. apply Z.ltb_lt in H1. now rewrite H0, H1.
Qed.

(** An index outside [0 .. len-1] is the only way a write can panic. *)
Lemma slice_set_panic_iff i v (s : list Z) :
  slice_set i v s = Panic IndexOutOfRange <-> ~ (0 <= i < Z.of_nat (length s)).
Proof.
  unfold slice_set.
  destruct (0 <=? i) eqn:E0; destruct (i <? Z.of_nat (length s)) eqn:E1; cbn;
    rewrite ?Z.leb_le, ?Z.leb_gt, ?Z.ltb_lt, ?Z.ltb_ge in *;
    split; intros H; try discriminate; try lia; try reflexivity.
Qed.

Lemma slice_get_ok i v (s : list Z) :
  0 <= i -> s !! Z.to_nat i = Some v -> slice_get i s = Ok (v, s).
Proof.
  intros H0 Hv. unfold slice_get.
  pose proof (lookup_lt_Some _ _ _ Hv) as Hlt.
  apply Z.leb_le in H0. rewrite H0.
  assert ((i <? Z.of_nat (length s)) = true) as -> by (apply Z.ltb_lt; lia).
  cbn. now rewrite Hv.
Qed.

Lemma slice_get_panic_iff i (s : list Z) :
  slice_get i s = Panic IndexOutOfRange <-> ~ (0 <= i < Z.of_nat (length s)).
Proof.
  unfold slice_get.
  destruct (0 <=? i) eqn:E0; destruct (i <? Z.of_nat (length s)) eqn:E1; cbn;
    rewrite ?Z.leb_le, ?Z.leb_gt, ?Z.ltb_lt, ?Z.ltb_ge in *;
    try (split; intros H; try discriminate; try lia; reflexivity).
  destruct (lookup_lt_is_Some_2 s (Z.to_nat i)) as [v Hv]; [lia|].
  rewrite Hv. split; [discriminate | lia].
Qed.

Lemma max_slice_len_val : max_slice_len = 35184372088832.
Proof. reflexivity. Qed.

Lemma max_slice_len_lt_int_max : max_slice_len < int_max.
Proof. reflexivity. Qed.

Lemma make_slice_ok len :
  0 <= len <= max_slice_len -> make_slice len = Ok (replicate (Z.to_nat len) 0).
Proof.
  intros H. unfold make_slice.
  assert ((len <? 0) = false) as -> by (apply Z.ltb_ge; lia).
  now assert ((max_slice_len <? len) = false) as -> by (apply Z.ltb_ge; lia).
Qed.

(** Outside [0 .. max_slice_len] no slice is made. *)
Lemma make_slice_refuses len :
  len < 0 \/ max_slice_len < len -> make_slice len = Panic LenOutOfRange.
Proof.
  intros H. unfold make_slice.
  assert ((len <? 0) || (max_slice_len <? len) = true) as ->; [|reflexivity].
  apply orb_true_iff. rewrite !Z.ltb_lt. exact H.
Qed.

(** From [max_slice_len] on, the length n+1 is refused: it is too large, or,
    at the largest [int], it has wrapped to a negative number. *)
Lemma FibRecursiveCache_too_long fuel n :
  max_slice_len <= n <= int_max ->
  FibRecursiveCache fuel n = Panic LenOutOfRange.
Proof.
  intros Hn. unfold FibRecursiveCache.
  rewrite make_slice_refuses; [reflexivity|].
  pose proof max_slice_len_val as Hv.
  destruct (Z.eq_dec n int_max) as [-> | Hne].
  - left. reflexivity.
  - right. rewrite add64_small; [lia|].
    apply in_range_nonneg. lia.
Qed.

(** The helper fills [cache[0 .. n]] with the sequence, never leaving the
    slice, provided the slice has an index [n] and [n >= 1]. *)
Lemma fibRecursiveCache_fills fuel : forall n (s : list Z),
  1 <= n <= int_max -> n < Z.of_nat (length s) ->
  (Z.to_nat n <= fuel)%nat ->
  exists s', fibRecursiveCache fuel n s = Ok (tt, s')
             /\ length s' = length s
             /\ forall k, (k <= Z.to_nat n)%nat -> s' !! k = Some (wrap (fib k)).
Proof.
  induction fuel as [|fuel IH]; intros n s Hn Hlen Hf; [lia|].
  cbn [fibRecursiveCache]. destruct (n <? 2) eqn:E.
  - apply Z.ltb_lt in E. assert (n = 1) as -> by lia.
    exists (<[1%nat := 1]> (<[0%nat := 0]> s)). unfold bind.
    rewrite slice_set_ok by lia.
    rewrite slice_set_ok by (rewrite length_insert; lia).
    split; [reflexivity|]. split; [now rewrite !length_insert|].
    intros k Hk. assert (k = 0 \/ k = 1)%nat as [-> | ->] by lia.
    + rewrite list_lookup_insert_ne by lia.
      rewrite list_lookup_insert_eq by lia. reflexivity.
    + rewrite list_lookup_insert_eq by (rewrite length_insert; lia). reflexivity.
  - apply Z.ltb_ge in E.
    rewrite !Scalar.pred_in_range by lia.
    destruct (IH (n - 1) s) as (s1 & Hrun & Hlen1 & Hs1); [lia..|].
    exists (<[Z.to_nat n := wrap (fib (Z.to_nat n))]> s1). unfold bind at 1.
    rewrite Hrun. unfold bind.
    rewrite (slice_get_ok (n - 1) (wrap (fib (Z.to_nat (n - 1))))) by (try apply Hs1; lia).
    rewrite (slice_get_ok (n - 2) (wrap (fib (Z.to_nat (n - 2))))) by (try apply Hs1; lia).
    rewrite slice_set_ok by lia.
    rewrite add64_wrap.
    replace (fib (Z.to_nat (n - 1)) + fib (Z.to_nat (n - 2))) with (fib (Z.to_nat n))
      by (change (fib (Z.to_nat ?m)) with (F m); now apply F_rec).
    split; [reflexivity|]. split; [now rewrite length_insert|].
    intros k Hk. destruct (decide (k = Z.to_nat n)) as [-> | Hne].
    + rewrite list_lookup_insert_eq by lia. reflexivity.
    + rewrite list_lookup_insert_ne by lia. apply Hs1. lia.
Qed.

Lemma FibRecursiveCache_correct fuel n :
  1 <= n < max_slice_len -> (Z.to_nat n <= fuel)%nat ->
  FibRecursiveCache fuel n = Ok (wrap (F n)).
Proof.
  intros Hn Hf. pose proof max_slice_len_lt_int_max as Hmax.
  unfold FibRecursiveCache.
  rewrite Scalar.succ_in_range by lia.
  rewrite make_slice_ok by lia. cbn [res_bind].
  destruct (fibRecursiveCache_fills fuel n (replicate (Z.to_nat (n + 1)) 0))
    as (s' & Hrun & _ & Hs'); [lia | rewrite length_replicate; lia | lia |].
  rewrite Hrun. cbn [res_bind snd].
  rewrite (slice_get_ok n (wrap (fib (Z.to_nat n)))) by (try apply Hs'; lia).
  reflexivity.
Qed.

(** With [n = 0] the slice has length 1 and the base case writes index 1. *)
Lemma FibRecursiveCache_zero fuel :
  FibRecursiveCache (S fuel) 0 = Panic IndexOutOfRange.
Proof. reflexivity. Qed.

End Cache.

(** ** The 2x2 matrices and the store *)

Module Matrix.

(** Four cell writes, row by row, replace the whole array. *)
Lemma aset_all a x y z w :
  aset (aset (aset (aset a 0 0 x) 0 1 y) 1 0 z) 1 1 w = Arr (Row x y) (Row z w).
Proof. now destruct a as [[? ?] [? ?]]. Qed.

Lemma mat_mul_assoc a b c : mat_mul (mat_mul a b) c = mat_mul a (mat_mul b c).
Proof.
  destruct a as [[? ?] [? ?]], b as [[? ?] [? ?]], c as [[? ?] [? ?]].
  unfold mat_mul; cbn. f_equal; f_equal; ring.
Qed.

Lemma mat_mul_id_l a : mat_mul mat_id a = a.
Proof.
  destruct a as [[? ?] [? ?]]. unfold mat_mul; cbn. f_equal; f_equal; ring.
Qed.

Lemma mat_mul_id_r a : mat_mul a mat_id = a.
Proof.
  destruct a as [[? ?] [? ?]]. unfold mat_mul; cbn. f_equal; f_equal; ring.
Qed.

Lemma mat_pow_1 m : mat_pow m 1 = m.
Proof. cbn. apply mat_mul_id_l. Qed.

Lemma mat_pow_add m j k :
  mat_pow m (j + k) = mat_mul (mat_pow m j) (mat_pow m k).
Proof.
  induction k as [|k IH].
  - rewrite Nat.add_0_r. cbn. now rewrite mat_mul_id_r.
  - rewrite Nat.add_succ_r. cbn [mat_pow]. now rewrite IH, mat_mul_assoc.
Qed.

(** Powers of the base matrix hold consecutive Fibonacci numbers. *)
Lemma mat_pow_fib k :
  mat_pow base_matrix (S k)
  = Arr (Row (fib (S (S k))) (fib (S k))) (Row (fib (S k)) (fib k)).
Proof.
  induction k as [|k IH]; [reflexivity|].
  change (mat_pow base_matrix (S (S k)))
    with (mat_mul (mat_pow base_matrix (S k)) base_matrix).
  rewrite IH. unfold mat_mul, base_matrix. cbn [aget r0 r1 c0 c1].
  rewrite (fib_SS (S k)), (fib_SS k). f_equal; f_equal; ring.
Qed.

Lemma top_left_pow n :
  1 <= n -> aget (mat_pow base_matrix (Z.to_nat (n - 1))) 0 0 = F n.
Proof.
  intros Hn. destruct (Z.to_nat (n - 1)) as [|k] eqn:E.
  - assert (n = 1) as -> by lia. reflexivity.
  - rewrite mat_pow_fib. cbn [aget r0 c0]. unfold F.
    f_equal. lia.
Qed.

Lemma wrap_mat_base : wrap_mat base_matrix = base_matrix.
Proof. reflexivity. Qed.

Lemma wrap_mat_mul a b :
  wrap_mat (mat_mul (wrap_mat a) (wrap_mat b)) = wrap_mat (mat_mul a b).
Proof.
  unfold wrap_mat, mat_mul. cbn [aget r0 r1 c0 c1].
  now rewrite !dot64_wrap.
Qed.

Lemma wrap_mat_mul_base a :
  wrap_mat (mat_mul (wrap_mat a) base_matrix) = wrap_mat (mat_mul a base_matrix).
Proof. rewrite <- wrap_mat_base at 1. apply wrap_mat_mul. Qed.

(** *** Store operations *)

Lemma alloc_fresh v (h : heap) :
  exists p, alloc v h = Ok (p, <[p := v]> h) /\ h !! p = None.
Proof.
  exists (fresh (dom h)). split; [reflexivity|].
  apply not_elem_of_dom, is_fresh.
Qed.

Lemma load_ok p a (h : heap) : h !! p = Some a -> load p h = Ok (a, h).
Proof. intros H. unfold load. now rewrite H. Qed.

Lemma store_cell_ok p i j v a (h : heap) :
  h !! p = Some a -> store_cell p i j v h = Ok (tt, <[p := aset a i j v]> h).
Proof. intros H. unfold store_cell. now rewrite H. Qed.

(** *** [fibMultiply]: the first operand's cell receives the product,
    whether or not the two pointers are the same. *)
Lemma fibMultiply_spec Fp Mp f m (h : heap) :
  h !! Fp = Some f -> h !! Mp = Some m ->
  fibMultiply Fp Mp h = Ok (tt, <[Fp := wrap_mat (mat_mul f m)]> h).
Proof.
  intros HF HM. unfold fibMultiply, bind.
  rewrite (load_ok _ _ _ HF), (load_ok _ _ _ HM).
  rewrite (store_cell_ok _ _ _ _ _ _ HF).
  erewrite store_cell_ok by apply lookup_insert_eq.
  erewrite store_cell_ok by apply lookup_insert_eq.
  erewrite store_cell_ok by apply lookup_insert_eq.
  rewrite !insert_insert_eq, aset_all, !dot64.
  reflexivity.
Qed.

End Matrix.

(** ** The two matrix-power procedures *)

Module MatrixPower.
Import Matrix.

Lemma bind_ok {S A B : Type} (c : comp S A) (k : A -> comp S B) s a s' :
  c s = Ok (a, s') -> bind c k s = k a s'.
Proof. intros H. unfold bind. now rewrite H. Qed.

(** Run the first command of a sequence with a known outcome. *)
Ltac step H := rewrite (bind_ok _ _ _ _ _ H).

Lemma fibPower_loop_unfold fuel Fp Mp n i :
  fibPower_loop (S fuel) Fp Mp n i =
  if i <=? n then
    run fibMultiply Fp Mp then fibPower_loop fuel Fp Mp n (add64 i 1)
  else ret tt.
Proof. reflexivity. Qed.

Lemma fibPowerRecursive_unfold fuel Fp n :
  fibPowerRecursive (S fuel) Fp n =
  if (n =? 0) || (n =? 1) then ret tt
  else
    let* M := alloc base_matrix in
    run fibPowerRecursive fuel Fp (quot64 n 2) then
    run fibMultiply Fp Fp then
    if negb (rem64 n 2 =? 0) then fibMultiply Fp M else ret tt.
Proof. reflexivity. Qed.

(** Loop invariant of [fibPower]: entering the test with counter [i], the
    cell of [F] holds the base matrix to some power [k]; each round adds one. *)
Lemma fibPower_loop_spec Fp Mp n fuel : forall i k (h : heap),
  Fp <> Mp ->
  h !! Fp = Some (wrap_mat (mat_pow base_matrix k)) ->
  h !! Mp = Some base_matrix ->
  0 <= i -> n < int_max -> (Z.to_nat (n + 1 - i) < fuel)%nat ->
  fibPower_loop fuel Fp Mp n i h
  = Ok (tt, <[Fp := wrap_mat (mat_pow base_matrix (k + Z.to_nat (n + 1 - i)))]> h).
Proof.
  induction fuel as [|fuel IH]; intros i k h Hne HF HM Hi Hn Hf; [lia|].
  rewrite fibPower_loop_unfold. destruct (i <=? n) eqn:E.
  - apply Z.leb_le in E.
    step (fibMultiply_spec _ _ _ _ _ HF HM).
    rewrite wrap_mat_mul_base, Scalar.succ_in_range by lia.
    rewrite (IH (i + 1) (S k)); try lia; try assumption.
    + rewrite insert_insert_eq.
      replace (S k + Z.to_nat (n + 1 - (i + 1)))%nat
        with (k + Z.to_nat (n + 1 - i))%nat by lia.
      reflexivity.
    + apply lookup_insert_eq.
    + now rewrite lookup_insert_ne.
  - apply Z.leb_gt in E.
    replace (Z.to_nat (n + 1 - i)) with 0%nat by lia.
    rewrite Nat.add_0_r, insert_id by assumption. reflexivity.
Qed.

Lemma fibPower_spec fuel Fp n (h : heap) :
  h !! Fp = Some base_matrix ->
  n < int_max -> (Z.to_nat (n - 1) < fuel)%nat ->
  exists h', fibPower fuel Fp n h = Ok (tt, h')
    /\ h' !! Fp = Some (wrap_mat (mat_pow base_matrix (S (Z.to_nat (n - 1))))).
Proof.
  intros HF Hn Hf. unfold fibPower.
  destruct (alloc_fresh base_matrix h) as (Mp & Halloc & Hnew).
  step Halloc.
  assert (Fp <> Mp) as Hne by congruence.
  eexists. split.
  - apply (fibPower_loop_spec Fp Mp n fuel 2 1); try lia; try assumption.
    + rewrite lookup_insert_ne by congruence.
      now rewrite mat_pow_1, wrap_mat_base.
    + apply lookup_insert_eq.
  - rewrite lookup_insert_eq. do 3 f_equal. lia.
Qed.

Lemma top_left_wrap a : aget (wrap_mat a) 0 0 = wrap (aget a 0 0).
Proof. reflexivity. Qed.

Lemma FibPowerMatrix_correct fuel n (h : heap) :
  0 <= n <= int_max -> (Z.to_nat n <= fuel)%nat ->
  value (FibPowerMatrix fuel n h) = Ok (wrap (F n)).
Proof.
  intros Hn Hf. unfold FibPowerMatrix.
  destruct (alloc_fresh base_matrix h) as (Fp & Halloc & _). step Halloc.
  destruct (n =? 0) eqn:E.
  - apply Z.eqb_eq in E. subst n. reflexivity.
  - apply Z.eqb_neq in E. rewrite Scalar.pred_in_range by lia.
    destruct (fibPower_spec fuel Fp (n - 1) (<[Fp := base_matrix]> h))
      as (h' & Hrun & HF); [apply lookup_insert_eq | lia | lia |].
    step Hrun. step (load_ok _ _ _ HF). unfold ret, value. cbn [res_bind fst].
    rewrite top_left_wrap, mat_pow_fib. cbn [aget r0 c0].
    do 2 f_equal. unfold F.
    destruct (decide (n = 1)) as [-> | Hn1]; [reflexivity|].
    f_equal. lia.
Qed.

End MatrixPower.

Module MatrixPowerRecursive.
Import Matrix MatrixPower.

Lemma half_nonneg n : 2 <= n <= int_max -> quot64 n 2 = n / 2.
Proof.
  intros Hn. unfold quot64. rewrite Z.quot_div_nonneg by lia.
  apply wrap_small, in_range_nonneg.
  pose proof (Z.div_pos n 2). pose proof (Z.div_lt n 2). lia.
Qed.

Lemma parity_nonneg n : 0 <= n -> rem64 n 2 = n mod 2.
Proof.
  intros Hn. unfold rem64. rewrite Z.rem_mod_nonneg by lia.
  apply wrap_small, in_range_nonneg.
  pose proof (Z.mod_pos_bound n 2). change int_max with 9223372036854775807. lia.
Qed.

(** The measure of the recursion: the exponent strictly decreases. *)
Lemma half_lt n : 2 <= n -> 0 <= n / 2 < n.
Proof.
  intros Hn. split; [apply Z.div_pos; lia | apply Z.div_lt; lia].
Qed.

Lemma half_lt_pow2 n (d : nat) : 0 <= n < 2 ^ Z.of_nat (S d) -> n / 2 < 2 ^ Z.of_nat d.
Proof.
  intros [H0 H1]. rewrite Nat2Z.inj_succ, Z.pow_succ_r in H1 by lia.
  apply Z.div_lt_upper_bound; lia.
Qed.

(** Started on the base matrix, [fibPowerRecursive] leaves its [n]-th power
    (the first power for [n = 0]) in the cell of [F], touches no other cell
    that existed before, and needs recursion depth at most [1 + log2 n]. *)
Lemma fibPowerRecursive_spec depth : forall Fp n (h : heap),
  h !! Fp = Some base_matrix ->
  0 <= n <= int_max -> n < 2 ^ Z.of_nat depth ->
  exists h', fibPowerRecursive (S depth) Fp n h = Ok (tt, h')
    /\ h' !! Fp = Some (wrap_mat (mat_pow base_matrix (Z.to_nat (Z.max n 1))))
    /\ forall p, p <> Fp -> is_Some (h !! p) -> h' !! p = h !! p.
Proof.
  induction depth as [|depth IH]; intros Fp n h HF Hn Hd;
    rewrite fibPowerRecursive_unfold;
    destruct ((n =? 0) || (n =? 1)) eqn:E.
  1, 3: apply orb_true_iff in E; rewrite !Z.eqb_eq in E;
        exists h; split; [reflexivity|]; split; [|reflexivity];
        replace (Z.to_nat (Z.max n 1)) with 1%nat by lia;
        now rewrite mat_pow_1, wrap_mat_base.
  - apply orb_false_iff in E. rewrite !Z.eqb_neq in E.
    change (2 ^ Z.of_nat 0) with 1 in Hd. lia.
  - apply orb_false_iff in E. rewrite !Z.eqb_neq in E.
    assert (2 <= n) as Hn2 by lia.
    replace (Z.max n 1) with n by lia.
    destruct (alloc_fresh base_matrix h) as (Mp & Halloc & Hnew). step Halloc.
    assert (Fp <> Mp) as Hne by congruence.
    rewrite half_nonneg, parity_nonneg by lia.
    pose proof (half_lt n Hn2) as Hhalf.
    destruct (IH Fp (n / 2) (<[Mp := base_matrix]> h)) as (h1 & Hrun & HF1 & Hframe1).
    { now rewrite lookup_insert_ne by congruence. }
    { lia. }
    { apply half_lt_pow2. lia. }
    step Hrun.
    assert (h1 !! Mp = Some base_matrix) as HM1.
    { rewrite Hframe1; [apply lookup_insert_eq | congruence |].
      rewrite lookup_insert_eq. eauto. }
    step (fibMultiply_spec _ _ _ _ _ HF1 HF1).
    rewrite wrap_mat_mul, <- mat_pow_add.
    assert (1 <= n / 2) as Hq by (apply Z.div_le_lower_bound; lia).
    replace (Z.to_nat (Z.max (n / 2) 1)) with (Z.to_nat (n / 2)) by lia.
    pose proof (Z.div_mod n 2) as Hdm. pose proof (Z.mod_pos_bound n 2) as Hmb.
    assert (forall p, p <> Fp -> is_Some (h !! p) -> h1 !! p = h !! p) as Hframe.
    { intros p Hp Hsome. rewrite Hframe1; [|assumption|].
      - apply lookup_insert_ne. intros ->. rewrite Hnew in Hsome.
        now destruct Hsome.
      - rewrite lookup_insert_ne; [assumption|]. intros ->.
        rewrite Hnew in Hsome. now destruct Hsome. }
    destruct (n mod 2 =? 0) eqn:Epar; cbn [negb].
    + apply Z.eqb_eq in Epar.
      eexists. split; [reflexivity|]. split.
      * rewrite lookup_insert_eq.
        replace (Z.to_nat (n / 2) + Z.to_nat (n / 2))%nat with (Z.to_nat n) by lia.
        reflexivity.
      * intros p Hp Hsome. rewrite lookup_insert_ne by congruence. now apply Hframe.
    + apply Z.eqb_neq in Epar.
      erewrite (fibMultiply_spec Fp Mp _ base_matrix);
        [| apply lookup_insert_eq | rewrite lookup_insert_ne by congruence; exact HM1].
      rewrite insert_insert_eq, wrap_mat_mul_base.
      eexists. split; [reflexivity|]. split.
      * rewrite lookup_insert_eq.
        change (mat_mul (mat_pow base_matrix ?k) base_matrix)
          with (mat_pow base_matrix (S k)).
        replace (S (Z.to_nat (n / 2) + Z.to_nat (n / 2))) with (Z.to_nat n) by lia.
        reflexivity.
      * intros p Hp Hsome. rewrite lookup_insert_ne by congruence. now apply Hframe.
Qed.

Lemma pow2_mono (a b : nat) : (a <= b)%nat -> 2 ^ Z.of_nat a <= 2 ^ Z.of_nat b.
Proof. intros H. apply Z.pow_le_mono_r; lia. Qed.

(** Sixty-four levels are enough for every exponent an [int] can hold. *)
Lemma int_max_lt_pow2 (fuel : nat) : (64 <= fuel)%nat -> int_max < 2 ^ Z.of_nat (pred fuel).
Proof.
  intros H. pose proof (pow2_mono 63 (pred fuel)) as P.
  change (2 ^ Z.of_nat 63) with 9223372036854775808 in P.
  change int_max with 9223372036854775807. lia.
Qed.

Lemma FibPowerMatrixRecursive_correct fuel n (h : heap) :
  0 <= n <= int_max -> (64 <= fuel)%nat ->
  value (FibPowerMatrixRecursive fuel n h) = Ok (wrap (F n)).
Proof.
  intros Hn Hf. unfold FibPowerMatrixRecursive.
  destruct (alloc_fresh base_matrix h) as (Fp & Halloc & _). step Halloc.
  destruct (n =? 0) eqn:E.
  - apply Z.eqb_eq in E. subst n. reflexivity.
  - apply Z.eqb_neq in E. rewrite Scalar.pred_in_range by lia.
    pose proof (int_max_lt_pow2 fuel Hf) as Hp.
    destruct fuel as [|depth]; [lia|]. cbn [pred] in Hp.
    destruct (fibPowerRecursive_spec depth Fp (n - 1) (<[Fp := base_matrix]> h))
      as (h' & Hrun & HF & _); [apply lookup_insert_eq | lia | lia |].
    step Hrun. step (load_ok _ _ _ HF). unfold ret, value. cbn [res_bind fst].
    rewrite top_left_wrap. do 2 f_equal.
    destruct (decide (n = 1)) as [-> | Hn1]; [reflexivity|].
    replace (Z.max (n - 1) 1) with (n - 1) by lia.
    apply top_left_pow. lia.
Qed.

End MatrixPowerRecursive.

(** ** Termination of [fibPowerRecursive] on any allocated matrix *)

Module Termination.
Import Matrix MatrixPower MatrixPowerRecursive.

Lemma insert_keeps (h : heap) q a p : is_Some (h !! p) -> is_Some (<[q := a]> h !! p).
Proof.
  intros H. destruct (decide (q = p)) as [-> | Hne].
  - rewrite lookup_insert_eq. eauto.
  - now rewrite lookup_insert_ne.
Qed.

Lemma fibMultiply_returns Fp Mp (h : heap) :
  is_Some (h !! Fp) -> is_Some (h !! Mp) ->
  exists h', fibMultiply Fp Mp h = Ok (tt, h')
             /\ forall p, is_Some (h !! p) -> is_Some (h' !! p).
Proof.
  intros [f HF] [m HM]. eexists. split.
  - apply (fibMultiply_spec _ _ _ _ _ HF HM).
  - intros p. apply insert_keeps.
Qed.

Lemma fibPowerRecursive_returns depth : forall Fp n (h : heap),
  is_Some (h !! Fp) -> 0 <= n <= int_max -> n < 2 ^ Z.of_nat depth ->
  exists h', fibPowerRecursive (S depth) Fp n h = Ok (tt, h')
             /\ forall p, is_Some (h !! p) -> is_Some (h' !! p).
Proof.
  induction depth as [|depth IH]; intros Fp n h HF Hn Hd;
    rewrite fibPowerRecursive_unfold;
    destruct ((n =? 0) || (n =? 1)) eqn:E.
  1, 3: exists h; split; [reflexivity | auto].
  - apply orb_false_iff in E. rewrite !Z.eqb_neq in E.
    change (2 ^ Z.of_nat 0) with 1 in Hd. lia.
  - apply orb_false_iff in E. rewrite !Z.eqb_neq in E.
    destruct (alloc_fresh base_matrix h) as (Mp & Halloc & _). step Halloc.
    rewrite half_nonneg, parity_nonneg by lia.
    destruct (IH Fp (n / 2) (<[Mp := base_matrix]> h)) as (h1 & Hrun & Hkeep1).
    { now apply insert_keeps. }
    { pose proof (half_lt n). lia. }
    { apply half_lt_pow2. lia. }
    step Hrun.
    assert (forall p, is_Some (h !! p) -> is_Some (h1 !! p)) as Hkeep
      by (intros p Hp; now apply Hkeep1, insert_keeps).
    assert (is_Some (h1 !! Mp)) as HM1
      by (apply Hkeep1; rewrite lookup_insert_eq; eauto).
    destruct (fibMultiply_returns Fp Fp h1) as (h2 & Hsq & Hkeep2); auto.
    step Hsq.
    destruct (negb (n mod 2 =? 0)).
    + destruct (fibMultiply_returns Fp Mp h2) as (h3 & Hmul & Hkeep3); auto.
      exists h3. split; [assumption | auto].
    + exists h2. split; [reflexivity | auto].
Qed.

(** The depth [2 + log2 n] always suffices. *)
Lemma log2_depth n (fuel : nat) :
  0 <= n -> Z.log2 n + 2 <= Z.of_nat fuel -> n < 2 ^ Z.of_nat (pred fuel).
Proof.
  intros Hn Hf. destruct (Z.eq_dec n 0) as [-> | Hnz].
  - apply Z.pow_pos_nonneg; lia.
  - destruct (Z.log2_spec n) as [_ Hup]; [lia|].
    pose proof (Z.log2_nonneg n).
    eapply Z.lt_le_trans; [exact Hup|].
    apply Z.pow_le_mono_r; lia.
Qed.

End Termination.

(** * The specification's statements *)

Import Scalar Cache Matrix MatrixPower MatrixPowerRecursive Termination.

Ltac int_range :=
  change int_max with 9223372036854775807 in *;
  change max_slice_len with 35184372088832 in *;
  lia.

(** C1. [FibIterative] returns F(n) for every n >= 1: the 64-bit reduction of
    F(n), which is F(n) itself while it fits (n <= 92).  For n = 0 the loop
    test [0 < n-1] fails at once, so the body never runs and the initial
    [second = 1] is returned, whereas F(0) = 0. *)
Theorem FibIterative_F_from_one_and_one_at_zero (n : Z) (fuel : nat) :
  0 <= n <= int_max -> (Z.to_nat n < fuel)%nat ->
  (1 <= n -> FibIterative fuel n = Ok (wrap (F n))
             /\ (n <= 92 -> FibIterative fuel n = Ok (F n)))
  /\ (n = 0 -> (0 <? sub64 n 1) = false
               /\ FibIterative fuel n = Ok 1
               /\ F n = 0).
Proof.
  intros Hn Hf. split.
  - intros H1. assert (FibIterative fuel n = Ok (wrap (F n))) as E
      by (apply FibIterative_correct; lia).
    split; [exact E|]. intros H92. now rewrite E, wrap_F_exact.
  - intros ->. destruct fuel as [|fuel]; [lia|].
    repeat split.
Qed.

Lemma FibIterative_F_from_one_and_one_at_zero_witness :
  (0 <= 10 <= int_max) /\ (Z.to_nat 10 < 11)%nat /\ FibIterative 11 10 = Ok (F 10).
Proof.
  assert (0 <= 10 <= int_max) as Hn by int_range.
  assert (Z.to_nat 10 < 11)%nat as Hf by lia.
  split; [exact Hn|]. split; [exact Hf|].
  destruct (FibIterative_F_from_one_and_one_at_zero 10 11 Hn Hf) as [H _].
  destruct H as [_ H]; [lia|]. apply H. lia.
Defined.

(** C2. For n >= 1, as long as the runtime makes a slice of length n+1
    (n below [max_slice_len]), [FibRecursiveCache] allocates n+1 zeroed
    integers, its helper fills indices 0..n with the sequence and the entry
    at index n, F(n), is returned.  At n = 0 the call does not return 0: it
    panics with an index out of range. *)
Theorem FibRecursiveCache_F_from_one_panic_at_zero (n : Z) (fuel : nat) :
  0 <= n < max_slice_len -> (Z.to_nat n < fuel)%nat ->
  (1 <= n ->
     make_slice (add64 n 1) = Ok (replicate (Z.to_nat (n + 1)) 0)
     /\ (exists s' : list Z,
           fibRecursiveCache fuel n (replicate (Z.to_nat (n + 1)) 0) = Ok (tt, s')
           /\ length s' = Z.to_nat (n + 1)
           /\ forall k, (k <= Z.to_nat n)%nat -> s' !! k = Some (wrap (fib k)))
     /\ FibRecursiveCache fuel n = Ok (wrap (F n))
     /\ (n <= 92 -> FibRecursiveCache fuel n = Ok (F n)))
  /\ (n = 0 -> FibRecursiveCache fuel n = Panic IndexOutOfRange /\ F n = 0).
Proof.
  intros Hn Hf. pose proof max_slice_len_lt_int_max as Hmax. split.
  - intros H1. split; [|split; [|split]].
    + rewrite succ_in_range by lia. apply make_slice_ok. lia.
    + destruct (fibRecursiveCache_fills fuel n (replicate (Z.to_nat (n + 1)) 0))
        as (s' & Hrun & Hlen & Hs'); [lia | rewrite length_replicate; lia | lia |].
      exists s'. rewrite length_replicate in Hlen. auto.
    + apply FibRecursiveCache_correct; lia.
    + intros H92. rewrite FibRecursiveCache_correct by lia.
      now rewrite wrap_F_exact.
  - intros ->. destruct fuel as [|fuel]; [lia|]. split; reflexivity.
Qed.

Lemma FibRecursiveCache_F_from_one_panic_at_zero_witness :
  (0 <= 0 < max_slice_len) /\ (Z.to_nat 0 < 1)%nat
  /\ FibRecursiveCache 1 0 = Panic IndexOutOfRange.
Proof.
  assert (0 <= 0 < max_slice_len) as Hn by int_range.
  assert (Z.to_nat 0 < 1)%nat as Hf by lia.
  split; [exact Hn|]. split; [exact Hf|].
  destruct (FibRecursiveCache_F_from_one_panic_at_zero 0 1 Hn Hf) as [_ H].
  apply H. reflexivity.
Defined.

(** C3. For every n >= 0 [FibPowerMatrixRecursive] returns F(n) (reduced to
    the 64-bit int): 0 for n = 0, and otherwise the top-left entry of
    [[1,1],[1,0]] to the power n-1.  The power procedure leaves the matrix
    unchanged for exponent 0 or 1, and for a larger exponent [e] recurses on
    [e/2], squares in place and multiplies by the base matrix when [e] is odd. *)
Theorem FibPowerMatrixRecursive_returns_F (n : Z) (fuel : nat) (h : heap) :
  0 <= n <= int_max -> (64 <= fuel)%nat ->
  value (FibPowerMatrixRecursive fuel n h) = Ok (wrap (F n))
  /\ (n <= 92 -> value (FibPowerMatrixRecursive fuel n h) = Ok (F n))
  /\ (n = 0 -> value (FibPowerMatrixRecursive fuel n h) = Ok 0)
  /\ (1 <= n ->
      value (FibPowerMatrixRecursive fuel n h)
      = Ok (wrap (aget (mat_pow base_matrix (Z.to_nat (n - 1))) 0 0)))
  /\ (forall Fp e (h' : heap),
        e = 0 \/ e = 1 -> fibPowerRecursive fuel Fp e h' = Ok (tt, h'))
  /\ (forall Fp e d (h' : heap),
        2 <= e <= int_max ->
        fibPowerRecursive (S d) Fp e h'
        = (let* M := alloc base_matrix in
           run fibPowerRecursive d Fp (e / 2) then
           run fibMultiply Fp Fp then
           if negb (e mod 2 =? 0) then fibMultiply Fp M else ret tt) h').
Proof.
  intros Hn Hf.
  assert (value (FibPowerMatrixRecursive fuel n h) = Ok (wrap (F n))) as E
    by now apply FibPowerMatrixRecursive_correct.
  split; [exact E|]. split; [|split; [|split; [|split]]].
  - intros H92. now rewrite E, wrap_F_exact.
  - intros ->. exact E.
  - intros H1. now rewrite E, top_left_pow.
  - intros Fp e h' He. destruct fuel as [|d]; [lia|].
    rewrite fibPowerRecursive_unfold. now destruct He as [-> | ->].
  - intros Fp e d h' He. rewrite fibPowerRecursive_unfold.
    assert ((e =? 0) || (e =? 1) = false) as ->
      by (apply orb_false_iff; rewrite !Z.eqb_neq; lia).
    now rewrite half_nonneg, parity_nonneg by lia.
Qed.

Lemma FibPowerMatrixRecursive_returns_F_witness :
  (0 <= 20 <= int_max) /\ (64 <= 64)%nat
  /\ value (FibPowerMatrixRecursive 64 20 ∅) = Ok (F 20).
Proof.
  assert (0 <= 20 <= int_max) as Hn by int_range.
  assert (64 <= 64)%nat as Hf by lia.
  split; [exact Hn|]. split; [exact Hf|].
  destruct (FibPowerMatrixRecursive_returns_F 20 64 ∅ Hn Hf) as (_ & H & _).
  apply H. lia.
Defined.

(** C4. [FibPowerMatrix] and [FibPowerMatrixRecursive] return the same value
    for every n from 0 to 200. *)
Theorem matrix_variants_agree_0_200 (n : Z) (fuel : nat) (h1 h2 : heap) :
  0 <= n <= 200 -> (200 <= fuel)%nat ->
  exists v, value (FibPowerMatrix fuel n h1) = Ok v
            /\ value (FibPowerMatrixRecursive fuel n h2) = Ok v.
Proof.
  intros Hn Hf. exists (wrap (F n)). split.
  - apply FibPowerMatrix_correct; [int_range | lia].
  - apply FibPowerMatrixRecursive_correct; [int_range | lia].
Qed.

Lemma matrix_variants_agree_0_200_witness :
  (0 <= 200 <= 200) /\ (200 <= 200)%nat
  /\ exists v, value (FibPowerMatrix 200 200 ∅) = Ok v
               /\ value (FibPowerMatrixRecursive 200 200 ∅) = Ok v.
Proof.
  assert (0 <= 200 <= 200) as Hn by lia.
  assert (200 <= 200)%nat as Hf by lia.
  split; [exact Hn|]. split; [exact Hf|].
  exact (matrix_variants_agree_0_200 200 200 ∅ ∅ Hn Hf).
Defined.

(** C5. For every n from 1 to 90 the five linear and logarithmic variants
    return the same value, F(n), and up to 40 so does [FibRecursive].  At
    n = 0 four variants return 0 and [FibIterative] returns 1, but
    [FibRecursiveCache] returns nothing: it panics. *)
Theorem variants_agree_from_one_cache_panics_at_zero
    (n : Z) (fuel : nat) (h1 h2 : heap) :
  0 <= n <= 90 -> (91 <= fuel)%nat ->
  (1 <= n ->
     FibRecursiveCache fuel n = Ok (F n)
     /\ FibTailRecursive fuel n = Ok (F n)
     /\ FibIterative fuel n = Ok (F n)
     /\ value (FibPowerMatrix fuel n h1) = Ok (F n)
     /\ value (FibPowerMatrixRecursive fuel n h2) = Ok (F n)
     /\ (n <= 40 -> FibRecursive fuel n = Ok (F n)))
  /\ (n = 0 ->
        FibRecursive fuel n = Ok 0
        /\ FibTailRecursive fuel n = Ok 0
        /\ value (FibPowerMatrix fuel n h1) = Ok 0
        /\ value (FibPowerMatrixRecursive fuel n h2) = Ok 0
        /\ FibIterative fuel n = Ok 1
        /\ FibRecursiveCache fuel n = Panic IndexOutOfRange).
Proof.
  intros Hn Hf. split.
  - intros H1. rewrite <- (wrap_F_exact n) by lia.
    repeat split.
    + apply FibRecursiveCache_correct; [int_range | lia].
    + apply FibTailRecursive_correct; [int_range | lia].
    + apply FibIterative_correct; [int_range | lia].
    + apply FibPowerMatrix_correct; [int_range | lia].
    + apply FibPowerMatrixRecursive_correct; [int_range | lia].
    + intros _. apply FibRecursive_correct; [int_range | lia].
  - intros ->. destruct fuel as [|fuel]; [lia|]. repeat split.
Qed.

Lemma variants_agree_from_one_cache_panics_at_zero_witness :
  (0 <= 0 <= 90) /\ (91 <= 91)%nat
  /\ FibRecursive 91 0 = Ok 0
  /\ FibIterative 91 0 = Ok 1
  /\ FibRecursiveCache 91 0 = Panic IndexOutOfRange.
Proof.
  assert (0 <= 0 <= 90) as Hn by lia.
  assert (91 <= 91)%nat as Hf by lia.
  split; [exact Hn|]. split; [exact Hf|].
  destruct (variants_agree_from_one_cache_panics_at_zero 0 91 ∅ ∅ Hn Hf) as [_ H].
  destruct H as (H1 & _ & _ & _ & H5 & H6); [reflexivity|]. auto.
Defined.

(** C6. For every n >= 0 [FibTailRecursive] returns F(n) (reduced to the
    64-bit int; F(n) itself for n <= 92).  It calls the helper with the
    accumulator pair (0, 1); the helper returns [first] when the count is 0
    and otherwise recurses on n-1 with the pair (second, first+second). *)
Theorem FibTailRecursive_returns_F (n : Z) (fuel : nat) :
  0 <= n <= int_max -> (Z.to_nat n < fuel)%nat ->
  FibTailRecursive fuel n = Ok (wrap (F n))
  /\ (n <= 92 -> FibTailRecursive fuel n = Ok (F n))
  /\ FibTailRecursive fuel n = fibTailRecursive fuel n 0 1
  /\ (forall first second, fibTailRecursive fuel 0 first second = Ok first)
  /\ (forall d first second,
        n <> 0 ->
        fibTailRecursive (S d) n first second
        = fibTailRecursive d (n - 1) second (add64 first second)).
Proof.
  intros Hn Hf.
  assert (FibTailRecursive fuel n = Ok (wrap (F n))) as E
    by now apply FibTailRecursive_correct.
  split; [exact E|]. split; [|split; [|split]].
  - intros H92. now rewrite E, wrap_F_exact.
  - reflexivity.
  - intros first second. destruct fuel as [|d]; [lia | reflexivity].
  - intros d first second Hnz. cbn [fibTailRecursive].
    apply Z.eqb_neq in Hnz. rewrite Hnz.
    apply Z.eqb_neq in Hnz. now rewrite pred_in_range by lia.
Qed.

Lemma FibTailRecursive_returns_F_witness :
  (0 <= 16 <= int_max) /\ (Z.to_nat 16 < 17)%nat
  /\ FibTailRecursive 17 16 = Ok (F 16).
Proof.
  assert (0 <= 16 <= int_max) as Hn by int_range.
  assert (Z.to_nat 16 < 17)%nat as Hf by lia.
  split; [exact Hn|]. split; [exact Hf|].
  destruct (FibTailRecursive_returns_F 16 17 Hn Hf) as (_ & H & _).
  apply H. lia.
Defined.

(** C7. The results are 64-bit signed integers that wrap silently: for every
    n >= 1 [FibIterative] and [FibTailRecursive] return, without any error,
    the same representable value, congruent to F(n) modulo 2^64; it is F(n)
    itself for n <= 92, and differs from F(n) from the 93rd term on, F(n)
    then exceeding the largest [int]. *)
Theorem linear_variants_wrap_silently (n : Z) (fuel : nat) :
  1 <= n <= int_max -> (Z.to_nat n < fuel)%nat ->
  exists v,
    FibIterative fuel n = Ok v
    /\ FibTailRecursive fuel n = Ok v
    /\ in_range v
    /\ v mod modulus = F n mod modulus
    /\ (n <= 92 -> v = F n)
    /\ (93 <= n -> int_max < F n /\ v <> F n).
Proof.
  intros Hn Hf. exists (wrap (F n)). repeat split.
  - apply FibIterative_correct; lia.
  - apply FibTailRecursive_correct; lia.
  - apply wrap_range.
  - apply wrap_range.
  - apply wrap_mod.
  - apply wrap_F_exact.
  - now apply F_overflows.
  - now apply wrap_F_differs.
Qed.

Lemma linear_variants_wrap_silently_witness :
  (1 <= 93 <= int_max) /\ (Z.to_nat 93 < 94)%nat
  /\ exists v, FibIterative 94 93 = Ok v /\ FibTailRecursive 94 93 = Ok v
               /\ v <> F 93.
Proof.
  assert (1 <= 93 <= int_max) as Hn by int_range.
  assert (Z.to_nat 93 < 94)%nat as Hf by lia.
  split; [exact Hn|]. split; [exact Hf|].
  destruct (linear_variants_wrap_silently 93 94 Hn Hf)
    as (v & Hi & Ht & _ & _ & _ & Hover).
  exists v. split; [exact Hi|]. split; [exact Ht|]. apply Hover. lia.
Defined.

(** C8. With n = 0 [FibRecursiveCache] makes a slice of length 1; the base
    case of the helper writes index 0 and then index 1, which is out of
    range, and the call panics with an index-out-of-range error.  For every
    n >= 1 no index is out of range: the call never raises that panic.  It
    returns a value, from a slice of length n+1, whenever the runtime makes
    a slice that long (n below [max_slice_len]); from there on [make] itself
    panics, before any index is used.  A read or write of the slice raises
    the index panic exactly when its index is outside [0 .. len-1]. *)
Theorem FibRecursiveCache_index_safety (n : Z) (fuel : nat) :
  0 <= n <= int_max -> (Z.to_nat n < fuel)%nat ->
  (n = 0 ->
     make_slice (add64 n 1) = Ok [0]
     /\ slice_set 0 0 [0] = Ok (tt, [0])
     /\ slice_set 1 1 [0] = Panic IndexOutOfRange
     /\ FibRecursiveCache fuel n = Panic IndexOutOfRange)
  /\ (1 <= n ->
        FibRecursiveCache fuel n <> Panic IndexOutOfRange
        /\ (n < max_slice_len ->
            exists (v : Z) (s' : list Z),
              FibRecursiveCache fuel n = Ok v
              /\ fibRecursiveCache fuel n (replicate (Z.to_nat (n + 1)) 0) = Ok (tt, s')
              /\ Z.of_nat (length s') = n + 1)
        /\ (max_slice_len <= n -> FibRecursiveCache fuel n = Panic LenOutOfRange))
  /\ (forall i v (s : list Z),
        (slice_set i v s = Panic IndexOutOfRange <-> ~ (0 <= i < Z.of_nat (length s)))
        /\ (slice_get i s = Panic IndexOutOfRange <-> ~ (0 <= i < Z.of_nat (length s)))).
Proof.
  intros Hn Hf. split; [|split].
  3: { intros i v s. split; [apply slice_set_panic_iff | apply slice_get_panic_iff]. }
  - intros ->. destruct fuel as [|fuel]; [lia|]. repeat split.
  - intros H1. destruct (Z.le_gt_cases max_slice_len n) as [Hlong | Hlt].
    + assert (FibRecursiveCache fuel n = Panic LenOutOfRange) as E
        by (apply FibRecursiveCache_too_long; lia).
      split; [rewrite E; discriminate|]. split; [lia | intros _; exact E].
    + assert (FibRecursiveCache fuel n = Ok (wrap (F n))) as E
        by (apply FibRecursiveCache_correct; lia).
      split; [rewrite E; discriminate|]. split; [|lia]. intros _.
      destruct (fibRecursiveCache_fills fuel n (replicate (Z.to_nat (n + 1)) 0))
        as (s' & Hrun & Hlen & _); [lia | rewrite length_replicate; lia | lia |].
      exists (wrap (F n)), s'. rewrite length_replicate in Hlen.
      split; [exact E|]. split; [exact Hrun | lia].
Qed.

Lemma FibRecursiveCache_index_safety_witness :
  (0 <= 10 <= int_max) /\ (Z.to_nat 10 < 11)%nat
  /\ FibRecursiveCache 11 10 <> Panic IndexOutOfRange.
Proof.
  assert (0 <= 10 <= int_max) as Hn by int_range.
  assert (Z.to_nat 10 < 11)%nat as Hf by lia.
  split; [exact Hn|]. split; [exact Hf|].
  destruct (FibRecursiveCache_index_safety 10 11 Hn Hf) as (_ & H & _).
  apply (proj1 (H ltac:(lia))).
Defined.

(** C9. [fibMultiply] reads both operands before it writes any cell: for all
    pointers [F] and [M] to 2x2 matrices, the same pointer twice included,
    the call returns and the cell of [F] then holds the matrix product (in
    64-bit arithmetic) of the values the two operands had before, every
    other cell being unchanged. *)
Theorem fibMultiply_product_even_aliased (Fp Mp : ptr) (f m : arr22) (h : heap) :
  h !! Fp = Some f -> h !! Mp = Some m ->
  exists h' : heap,
    fibMultiply Fp Mp h = Ok (tt, h')
    /\ h' !! Fp = Some (wrap_mat (mat_mul f m))
    /\ (Fp = Mp -> h' !! Mp = Some (wrap_mat (mat_mul f f)))
    /\ (forall p, p <> Fp -> h' !! p = h !! p).
Proof.
  intros HF HM. exists (<[Fp := wrap_mat (mat_mul f m)]> h).
  split; [now apply fibMultiply_spec|]. split; [apply lookup_insert_eq|]. split.
  - intros <-. rewrite lookup_insert_eq. congruence.
  - intros p Hp. now rewrite lookup_insert_ne.
Qed.

Lemma fibMultiply_product_even_aliased_witness :
  ({[ 7%nat := Arr (Row 2 1) (Row 1 1) ]} : heap) !! 7%nat
  = Some (Arr (Row 2 1) (Row 1 1))
  /\ exists h' : heap,
       fibMultiply 7 7 {[ 7%nat := Arr (Row 2 1) (Row 1 1) ]} = Ok (tt, h')
       /\ h' !! 7%nat = Some (Arr (Row 5 3) (Row 3 2)).
Proof.
  assert (({[ 7%nat := Arr (Row 2 1) (Row 1 1) ]} : heap) !! 7%nat
          = Some (Arr (Row 2 1) (Row 1 1))) as H7
    by apply lookup_singleton_eq.
  split; [exact H7|].
  destruct (fibMultiply_product_even_aliased 7 7 _ _ _ H7 H7) as (h' & Hrun & Hcell & _).
  exists h'. split; [exact Hrun | exact Hcell].
Defined.

(** C10. [fibPowerRecursive] terminates for every n >= 0: exponents 0 and 1
    return at once, and an exponent n >= 2 makes its one recursive call on
    n/2, strictly smaller than n and not negative, so that the call relation
    is well founded and a recursion depth of 2 + log2 n is never exceeded. *)
Theorem fibPowerRecursive_terminates (n : Z) (fuel : nat) (Fp : ptr) (h : heap) :
  0 <= n <= int_max -> is_Some (h !! Fp) -> Z.log2 n + 2 <= Z.of_nat fuel ->
  (exists h' : heap, fibPowerRecursive fuel Fp n h = Ok (tt, h'))
  /\ (n <= 1 -> fibPowerRecursive 1 Fp n h = Ok (tt, h))
  /\ (2 <= n -> quot64 n 2 = n / 2 /\ 0 <= n / 2 < n
                /\ fibPowerRecursive_calls (n / 2) n)
  /\ well_founded fibPowerRecursive_calls.
Proof.
  intros Hn HF Hfuel. split; [|split; [|split]].
  - pose proof (log2_depth n fuel ltac:(lia) Hfuel) as Hd.
    pose proof (Z.log2_nonneg n).
    destruct fuel as [|depth]; [lia|]. cbn [pred] in Hd.
    destruct (fibPowerRecursive_returns depth Fp n h HF Hn Hd) as (h' & Hrun & _).
    now exists h'.
  - intros H1. rewrite fibPowerRecursive_unfold.
    now assert (n = 0 \/ n = 1) as [-> | ->] by lia.
  - intros H2. rewrite half_nonneg by lia. split; [reflexivity|].
    split; [now apply half_lt|].
    unfold fibPowerRecursive_calls. rewrite half_nonneg by lia.
    split; [lia|]. split; [|reflexivity].
    apply orb_false_iff. rewrite !Z.eqb_neq. lia.
  - apply (wf_incl Z _ (fun x y => 0 <= x < y)); [|apply (Z.lt_wf 0)].
    intros x y (Hy & Hbase & ->).
    apply orb_false_iff in Hbase. rewrite !Z.eqb_neq in Hbase.
    rewrite half_nonneg by lia. apply half_lt. lia.
Qed.

Lemma fibPowerRecursive_terminates_witness :
  (0 <= 1023 <= int_max)
  /\ is_Some (({[ 0%nat := base_matrix ]} : heap) !! 0%nat)
  /\ Z.log2 1023 + 2 <= Z.of_nat 11
  /\ exists h' : heap,
       fibPowerRecursive 11 0 1023 {[ 0%nat := base_matrix ]} = Ok (tt, h').
Proof.
  assert (0 <= 1023 <= int_max) as Hn by int_range.
  assert (is_Some (({[ 0%nat := base_matrix ]} : heap) !! 0%nat)) as HF
    by (exists base_matrix; apply lookup_singleton_eq).
  assert (Z.log2 1023 + 2 <= Z.of_nat 11) as Hfuel by (vm_compute; discriminate).
  split; [exact Hn|]. split; [exact HF|]. split; [exact Hfuel|].
  exact (proj1 (fibPowerRecursive_terminates 1023 11 0 _ Hn HF Hfuel)).
Defined.

(** * Further properties of the code *)

Ltac range_lia :=
  unfold in_range in *;
  change int_min with (-9223372036854775808) in *;
  change int_max with 9223372036854775807 in *;
  lia.

(** ** Scalar variants: inputs outside the intended range, general accumulators *)

Module ScalarEdge.

Lemma wrap_absorb_add x y : wrap (x + wrap y) = wrap (x + y).
Proof.
  destruct (wrap_spec y) as [k ->]. apply (wrap_congr _ _ k). lia.
Qed.

Lemma wrap_absorb_mul x y z : wrap (x + wrap y * z) = wrap (x + y * z).
Proof.
  destruct (wrap_spec y) as [k ->]. apply (wrap_congr _ _ (k * z)). lia.
Qed.

Lemma fibTailRecursive_unfold fuel n first second :
  fibTailRecursive (S fuel) n first second =
  if n =? 0 then Ok first
  else fibTailRecursive fuel (sub64 n 1) second (add64 first second).
Proof. reflexivity. Qed.

(** From any accumulator pair the helper returns the matching linear
    combination of two consecutive Fibonacci numbers. *)
Lemma fibTailRecursive_linear k : forall fuel a b,
  Z.of_nat (S k) <= int_max -> in_range b -> (S k < fuel)%nat ->
  fibTailRecursive fuel (Z.of_nat (S k)) a b
  = Ok (wrap (a * fib k + b * fib (S k))).
Proof.
  induction k as [|k IH]; intros fuel a b Hk Hb Hf.
  - destruct fuel as [|[|fuel]]; [lia | lia |].
    rewrite !fibTailRecursive_unfold.
    change (Z.of_nat 1 =? 0) with false. cbv iota.
    change (sub64 (Z.of_nat 1) 1 =? 0) with true. cbv iota.
    cbn [fib]. f_equal. rewrite wrap_small; [lia|].
    now replace (a * 0 + b * 1) with b by lia.
  - destruct fuel as [|fuel]; [lia|].
    rewrite fibTailRecursive_unfold.
    assert ((Z.of_nat (S (S k)) =? 0) = false) as -> by (apply Z.eqb_neq; lia).
    rewrite Scalar.pred_in_range by lia.
    replace (Z.of_nat (S (S k)) - 1) with (Z.of_nat (S k)) by lia.
    rewrite IH; [| lia | apply wrap_range | lia].
    f_equal. unfold add64. rewrite wrap_absorb_mul.
    rewrite (fib_SS k). f_equal. lia.
Qed.

(** A negative count only moves away from 0: no result before the count
    wraps around at the smallest [int]. *)
Lemma fibTailRecursive_negative fuel : forall n a b,
  int_min <= n < 0 -> Z.of_nat fuel <= n - int_min + 1 ->
  fibTailRecursive fuel n a b = OutOfFuel.
Proof.
  induction fuel as [|fuel IH]; intros n a b Hn Hf; [reflexivity|].
  rewrite fibTailRecursive_unfold.
  assert ((n =? 0) = false) as -> by (apply Z.eqb_neq; lia).
  destruct (Z.eq_dec n int_min) as [-> | Hne].
  - destruct fuel as [|fuel]; [reflexivity | lia].
  - assert (sub64 n 1 = n - 1) as -> by (apply sub64_small; range_lia).
    apply IH; lia.
Qed.

End ScalarEdge.

(** X1. [FibRecursive] returns every argument below 2 unchanged, negative
    ones included, and for every non-negative [int] it returns F(n) reduced
    to 64 bits; from 2 on its result is the wrapping sum of its results at
    n-1 and n-2. *)
Theorem FibRecursive_total_and_recurrent (n : Z) (fuel : nat) :
  (Z.to_nat n < fuel)%nat -> in_range n ->
  (n < 2 -> FibRecursive fuel n = Ok n)
  /\ (0 <= n -> FibRecursive fuel n = Ok (wrap (F n)))
  /\ (2 <= n ->
      exists a b, FibRecursive fuel (n - 1) = Ok a
                  /\ FibRecursive fuel (n - 2) = Ok b
                  /\ FibRecursive fuel n = Ok (add64 a b)).
Proof.
  intros Hf Hn. split; [|split].
  - intros H2. destruct fuel as [|fuel]; [lia|]. cbn [FibRecursive].
    now assert ((n <? 2) = true) as -> by (apply Z.ltb_lt; lia).
  - intros H0. apply Scalar.FibRecursive_correct; [range_lia | lia].
  - intros H2. exists (wrap (F (n - 1))), (wrap (F (n - 2))).
    rewrite !Scalar.FibRecursive_correct by (try range_lia; lia).
    repeat split. rewrite add64_wrap, (F_rec n) by lia. reflexivity.
Qed.

Lemma FibRecursive_total_and_recurrent_witness :
  (Z.to_nat (-3) < 1)%nat /\ in_range (-3) /\ FibRecursive 1 (-3) = Ok (-3).
Proof.
  assert (Z.to_nat (-3) < 1)%nat as Hf by lia.
  assert (in_range (-3)) as Hn by range_lia.
  split; [exact Hf|]. split; [exact Hn|].
  destruct (FibRecursive_total_and_recurrent (-3) 1 Hf Hn) as [H _].
  apply H. lia.
Defined.

(** X2. Started from any pair of [int]s (first, second) with a count n >= 1,
    the tail-recursive helper returns first * F(n-1) + second * F(n), reduced
    to 64 bits. *)
Theorem fibTailRecursive_linear_in_accumulators (n first second : Z) (fuel : nat) :
  1 <= n <= int_max -> in_range first -> in_range second ->
  (Z.to_nat n < fuel)%nat ->
  fibTailRecursive fuel n first second
  = Ok (wrap (first * F (n - 1) + second * F n)).
Proof.
  intros Hn Ha Hb Hf. unfold F.
  replace (Z.to_nat n) with (S (Z.to_nat (n - 1))) in * by lia.
  replace n with (Z.of_nat (S (Z.to_nat (n - 1)))) at 1 by lia.
  apply ScalarEdge.fibTailRecursive_linear; [lia | assumption | lia].
Qed.

Lemma fibTailRecursive_linear_in_accumulators_witness :
  (1 <= 5 <= int_max) /\ in_range 2 /\ in_range 1 /\ (Z.to_nat 5 < 6)%nat
  /\ fibTailRecursive 6 5 2 1 = Ok (wrap (2 * F 4 + 1 * F 5)).
Proof.
  assert (1 <= 5 <= int_max) as Hn by int_range.
  assert (in_range 2) as Ha by range_lia.
  assert (in_range 1) as Hb by range_lia.
  assert (Z.to_nat 5 < 6)%nat as Hf by lia.
  split; [exact Hn|]. split; [exact Ha|]. split; [exact Hb|]. split; [exact Hf|].
  exact (fibTailRecursive_linear_in_accumulators 5 2 1 6 Hn Ha Hb Hf).
Defined.

(** X3. On a negative argument [FibTailRecursive] does not return: the count
    is decremented away from 0, and no call within the first n - MinInt64 + 1
    levels of recursion reaches the base case. *)
Theorem FibTailRecursive_negative_does_not_return (n : Z) (fuel : nat) :
  int_min <= n < 0 -> Z.of_nat fuel <= n - int_min + 1 ->
  FibTailRecursive fuel n = OutOfFuel.
Proof.
  intros Hn Hf. now apply ScalarEdge.fibTailRecursive_negative.
Qed.

Lemma FibTailRecursive_negative_does_not_return_witness :
  (int_min <= -1 < 0) /\ Z.of_nat 1000 <= -1 - int_min + 1
  /\ FibTailRecursive 1000 (-1) = OutOfFuel.
Proof.
  assert (int_min <= -1 < 0) as Hn by range_lia.
  assert (Z.of_nat 1000 <= -1 - int_min + 1) as Hf by range_lia.
  split; [exact Hn|]. split; [exact Hf|].
  exact (FibTailRecursive_negative_does_not_return (-1) 1000 Hn Hf).
Defined.

(** X4. For every argument n <= 1 above the smallest [int], negative ones
    included, the loop of [FibIterative] does not run and 1 is returned; at
    the smallest [int] the bound n-1 wraps around to the largest. *)
Theorem FibIterative_one_up_to_one (n : Z) (fuel : nat) :
  int_min < n <= 1 -> (1 <= fuel)%nat ->
  FibIterative fuel n = Ok 1 /\ sub64 int_min 1 = int_max.
Proof.
  intros Hn Hf. split; [|reflexivity].
  destruct fuel as [|fuel]; [lia|]. unfold FibIterative. cbn [FibIterative_loop].
  assert (sub64 n 1 = n - 1) as -> by (apply sub64_small; range_lia).
  now assert ((0 <? n - 1) = false) as -> by (apply Z.ltb_ge; lia).
Qed.

Lemma FibIterative_one_up_to_one_witness :
  (int_min < -7 <= 1) /\ (1 <= 1)%nat /\ FibIterative 1 (-7) = Ok 1.
Proof.
  assert (int_min < -7 <= 1) as Hn by range_lia.
  assert (1 <= 1)%nat as Hf by lia.
  split; [exact Hn|]. split; [exact Hf|].
  exact (proj1 (FibIterative_one_up_to_one (-7) 1 Hn Hf)).
Defined.

(** X5. Past the overflow point too, the six variants return one and the same
    value, F(n) reduced to 64 bits, for every n >= 1 for which the runtime
    still makes the cache slice (n below [max_slice_len]).  From there on
    [FibRecursiveCache] panics in [make] while the other five go on agreeing. *)
Theorem all_variants_agree_past_overflow (n : Z) (fuel : nat) (h1 h2 : heap) :
  1 <= n <= int_max -> (Z.to_nat n < fuel)%nat -> (64 <= fuel)%nat ->
  exists v,
    v = wrap (F n)
    /\ FibRecursive fuel n = Ok v
    /\ FibTailRecursive fuel n = Ok v
    /\ FibIterative fuel n = Ok v
    /\ value (FibPowerMatrix fuel n h1) = Ok v
    /\ value (FibPowerMatrixRecursive fuel n h2) = Ok v
    /\ (n < max_slice_len -> FibRecursiveCache fuel n = Ok v)
    /\ (max_slice_len <= n -> FibRecursiveCache fuel n = Panic LenOutOfRange).
Proof.
  intros Hn Hf H64. exists (wrap (F n)). repeat split.
  - apply FibRecursive_correct; lia.
  - apply FibTailRecursive_correct; lia.
  - apply FibIterative_correct; lia.
  - apply FibPowerMatrix_correct; lia.
  - apply FibPowerMatrixRecursive_correct; lia.
  - intros Hlt. apply FibRecursiveCache_correct; lia.
  - intros Hge. apply FibRecursiveCache_too_long; lia.
Qed.

Lemma all_variants_agree_past_overflow_witness :
  (1 <= 100 <= int_max) /\ (Z.to_nat 100 < 101)%nat /\ (64 <= 101)%nat
  /\ exists v, FibIterative 101 100 = Ok v
               /\ value (FibPowerMatrixRecursive 101 100 ∅) = Ok v
               /\ FibRecursiveCache 101 100 = Ok v.
Proof.
  assert (1 <= 100 <= int_max) as Hn by int_range.
  assert (Z.to_nat 100 < 101)%nat as Hf by lia.
  assert (64 <= 101)%nat as H64 by lia.
  split; [exact Hn|]. split; [exact Hf|]. split; [exact H64|].
  destruct (all_variants_agree_past_overflow 100 101 ∅ ∅ Hn Hf H64)
    as (v & _ & _ & _ & Hi & _ & Hm & Hc & _).
  exists v. split; [exact Hi|]. split; [exact Hm|]. apply Hc. int_range.
Defined.

(** X6. Up to n = 92 the results of [FibTailRecursive] are non-negative and
    non-decreasing in n; the result at 93 has wrapped to a negative number. *)
Theorem FibTailRecursive_monotone_until_overflow (m n : Z) (fuel : nat) :
  0 <= m <= n -> n <= 92 -> (93 < fuel)%nat ->
  (exists a b, FibTailRecursive fuel m = Ok a /\ FibTailRecursive fuel n = Ok b
               /\ 0 <= a <= b)
  /\ FibTailRecursive fuel 93 = Ok (-6246583658587674878).
Proof.
  intros Hm Hn Hf. split.
  - exists (F m), (F n).
    rewrite !FibTailRecursive_correct by (try int_range; lia).
    rewrite !wrap_F_exact by lia. repeat split.
    + apply F_nonneg.
    + apply F_mono. lia.
  - rewrite FibTailRecursive_correct by (try int_range; lia).
    rewrite F_93. reflexivity.
Qed.

Lemma FibTailRecursive_monotone_until_overflow_witness :
  (0 <= 10 <= 20) /\ 20 <= 92 /\ (93 < 94)%nat
  /\ exists a b, FibTailRecursive 94 10 = Ok a /\ FibTailRecursive 94 20 = Ok b
                 /\ 0 <= a <= b.
Proof.
  assert (0 <= 10 <= 20) as Hm by lia.
  assert (20 <= 92) as Hn by lia.
  assert (93 < 94)%nat as Hf by lia.
  split; [exact Hm|]. split; [exact Hn|]. split; [exact Hf|].
  exact (proj1 (FibTailRecursive_monotone_until_overflow 10 20 94 Hm Hn Hf)).
Defined.

(** X7. From n = 3 on, the result of [FibIterative] is the wrapping sum of its
    results at n-1 and n-2.  At n = 2 it is not: the results at 2, 1 and 0
    are all 1. *)
Theorem FibIterative_recurrence_from_three (n : Z) (fuel : nat) :
  3 <= n <= int_max -> (Z.to_nat n < fuel)%nat ->
  (exists a b, FibIterative fuel (n - 2) = Ok a
               /\ FibIterative fuel (n - 1) = Ok b
               /\ FibIterative fuel n = Ok (add64 b a))
  /\ FibIterative fuel 2 = Ok 1
  /\ FibIterative fuel 1 = Ok 1
  /\ FibIterative fuel 0 = Ok 1.
Proof.
  intros Hn Hf. split.
  - exists (wrap (F (n - 2))), (wrap (F (n - 1))).
    rewrite !FibIterative_correct by lia. repeat split.
    rewrite add64_wrap, (F_rec n) by lia. reflexivity.
  - destruct fuel as [|[|[|fuel]]]; try lia. repeat split.
Qed.

Lemma FibIterative_recurrence_from_three_witness :
  (3 <= 3 <= int_max) /\ (Z.to_nat 3 < 4)%nat
  /\ exists a b, FibIterative 4 1 = Ok a /\ FibIterative 4 2 = Ok b
                 /\ FibIterative 4 3 = Ok (add64 b a).
Proof.
  assert (3 <= 3 <= int_max) as Hn by int_range.
  assert (Z.to_nat 3 < 4)%nat as Hf by lia.
  split; [exact Hn|]. split; [exact Hf|].
  exact (proj1 (FibIterative_recurrence_from_three 3 4 Hn Hf)).
Defined.

(** ** The cache helper on slices of any length *)

Module CacheFrame.

Lemma fibRecursiveCache_unfold fuel n :
  fibRecursiveCache (S fuel) n =
  if n <? 2 then
    run slice_set 0 0 then run slice_set 1 1 then ret tt
  else
    run fibRecursiveCache fuel (sub64 n 1) then
    let* a := slice_get (sub64 n 1) in
    let* b := slice_get (sub64 n 2) in
    slice_set n (add64 a b).
Proof. reflexivity. Qed.

Lemma slice_set_out i v (s : list Z) :
  ~ (0 <= i < Z.of_nat (length s)) -> slice_set i v s = Panic IndexOutOfRange.
Proof. apply slice_set_panic_iff. Qed.

(** Base case on a slice with at least two cells, whatever [n < 2] is. *)
Lemma fibRecursiveCache_base fuel n (s : list Z) :
  n < 2 -> (2 <= length s)%nat ->
  fibRecursiveCache (S fuel) n s = Ok (tt, <[1%nat := 1]> (<[0%nat := 0]> s)).
Proof.
  intros Hn Hlen. rewrite fibRecursiveCache_unfold.
  assert ((n <? 2) = true) as -> by (apply Z.ltb_lt; lia).
  unfold bind. rewrite slice_set_ok by lia.
  rewrite slice_set_ok by (rewrite length_insert; lia). reflexivity.
Qed.

(** The helper writes indices 0..n and nothing else. *)
Lemma fibRecursiveCache_frame fuel : forall n (s : list Z),
  1 <= n <= int_max -> n < Z.of_nat (length s) ->
  (Z.to_nat n <= fuel)%nat ->
  exists s', fibRecursiveCache fuel n s = Ok (tt, s')
             /\ length s' = length s
             /\ (forall k, (k <= Z.to_nat n)%nat -> s' !! k = Some (wrap (fib k)))
             /\ (forall k, (Z.to_nat n < k)%nat -> s' !! k = s !! k).
Proof.
  induction fuel as [|fuel IH]; intros n s Hn Hlen Hf; [lia|].
  destruct (Z.ltb_spec n 2) as [E | E].
  - assert (n = 1) as -> by lia.
    rewrite fibRecursiveCache_base by lia.
    eexists. split; [reflexivity|]. split; [now rewrite !length_insert|]. split.
    + intros k Hk. assert (k = 0 \/ k = 1)%nat as [-> | ->] by lia.
      * rewrite list_lookup_insert_ne by lia.
        rewrite list_lookup_insert_eq by lia. reflexivity.
      * rewrite list_lookup_insert_eq by (rewrite length_insert; lia). reflexivity.
    + intros k Hk. now rewrite !list_lookup_insert_ne by lia.
  - rewrite fibRecursiveCache_unfold.
    assert ((n <? 2) = false) as -> by (apply Z.ltb_ge; lia).
    rewrite !Scalar.pred_in_range by lia.
    destruct (IH (n - 1) s) as (s1 & Hrun & Hlen1 & Hs1 & Hrest1); [lia..|].
    exists (<[Z.to_nat n := wrap (fib (Z.to_nat n))]> s1). unfold bind at 1.
    rewrite Hrun. unfold bind.
    rewrite (slice_get_ok (n - 1) (wrap (fib (Z.to_nat (n - 1))))) by (try apply Hs1; lia).
    rewrite (slice_get_ok (n - 2) (wrap (fib (Z.to_nat (n - 2))))) by (try apply Hs1; lia).
    rewrite slice_set_ok by lia.
    rewrite add64_wrap.
    replace (fib (Z.to_nat (n - 1)) + fib (Z.to_nat (n - 2))) with (fib (Z.to_nat n))
      by (change (fib (Z.to_nat ?m)) with (F m); now apply F_rec).
    split; [reflexivity|]. split; [now rewrite length_insert|]. split.
    + intros k Hk. destruct (decide (k = Z.to_nat n)) as [-> | Hne].
      * rewrite list_lookup_insert_eq by lia. reflexivity.
      * rewrite list_lookup_insert_ne by lia. apply Hs1. lia.
    + intros k Hk. rewrite list_lookup_insert_ne by lia. apply Hrest1. lia.
Qed.

(** On a slice without an index [n] the helper panics. *)
Lemma fibRecursiveCache_short fuel : forall n (s : list Z),
  1 <= n <= int_max -> Z.of_nat (length s) <= n ->
  (Z.to_nat n <= fuel)%nat ->
  fibRecursiveCache fuel n s = Panic IndexOutOfRange.
Proof.
  induction fuel as [|fuel IH]; intros n s Hn Hlen Hf; [lia|].
  rewrite fibRecursiveCache_unfold.
  destruct (Z.ltb_spec n 2) as [E | E].
  - assert (n = 1) as -> by lia. unfold bind.
    destruct s as [|x [|y s]]; cbn [length] in Hlen; [reflexivity | reflexivity | lia].
  - rewrite !Scalar.pred_in_range by lia. unfold bind at 1.
    destruct (Z.le_gt_cases (Z.of_nat (length s)) (n - 1)) as [Hs | Hs].
    + now rewrite IH by lia.
    + destruct (fibRecursiveCache_frame fuel (n - 1) s)
        as (s1 & Hrun & Hlen1 & Hs1 & _); [lia..|].
      rewrite Hrun. unfold bind.
      rewrite (slice_get_ok (n - 1) (wrap (fib (Z.to_nat (n - 1))))) by (try apply Hs1; lia).
      rewrite (slice_get_ok (n - 2) (wrap (fib (Z.to_nat (n - 2))))) by (try apply Hs1; lia).
      apply slice_set_out. lia.
Qed.

End CacheFrame.

(** X8. On any slice that has an index n >= 1, [fibRecursiveCache] returns,
    keeps the length, leaves cache[k] = F(k) (64-bit) for every k <= n and
    does not change any cell above n; run a second time on the slice it
    filled, it changes nothing. *)
Theorem fibRecursiveCache_writes_only_up_to_n (n : Z) (fuel : nat) (s : list Z) :
  1 <= n <= int_max -> n < Z.of_nat (length s) -> (Z.to_nat n <= fuel)%nat ->
  exists s', fibRecursiveCache fuel n s = Ok (tt, s')
             /\ length s' = length s
             /\ (forall k, (k <= Z.to_nat n)%nat -> s' !! k = Some (wrap (fib k)))
             /\ (forall k, (Z.to_nat n < k)%nat -> s' !! k = s !! k)
             /\ fibRecursiveCache fuel n s' = Ok (tt, s').
Proof.
  intros Hn Hlen Hf.
  destruct (CacheFrame.fibRecursiveCache_frame fuel n s Hn Hlen Hf)
    as (s' & Hrun & Hlen' & Hfill & Hrest).
  exists s'. repeat split; try assumption.
  destruct (CacheFrame.fibRecursiveCache_frame fuel n s' Hn)
    as (s'' & Hrun2 & _ & Hfill2 & Hrest2); [lia | lia |].
  rewrite Hrun2. do 2 f_equal. apply list_eq. intros k.
  destruct (Nat.le_gt_cases k (Z.to_nat n)) as [Hk | Hk].
  - now rewrite Hfill, Hfill2.
  - now apply Hrest2.
Qed.

Lemma fibRecursiveCache_writes_only_up_to_n_witness :
  (1 <= 2 <= int_max) /\ 2 < Z.of_nat (length [7; 7; 7; 7]) /\ (Z.to_nat 2 <= 2)%nat
  /\ exists s', fibRecursiveCache 2 2 [7; 7; 7; 7] = Ok (tt, s')
                /\ s' !! 3%nat = [7; 7; 7; 7] !! 3%nat.
Proof.
  assert (1 <= 2 <= int_max) as Hn by int_range.
  assert (2 < Z.of_nat (length [7; 7; 7; 7])) as Hlen by (simpl; lia).
  assert (Z.to_nat 2 <= 2)%nat as Hf by lia.
  split; [exact Hn|]. split; [exact Hlen|]. split; [exact Hf|].
  destruct (fibRecursiveCache_writes_only_up_to_n 2 2 [7; 7; 7; 7] Hn Hlen Hf)
    as (s' & Hrun & _ & _ & Hrest & _).
  exists s'. split; [exact Hrun|]. apply Hrest. lia.
Defined.

(** X9. [fibRecursiveCache] with n >= 1 on a slice that has no index n
    (length at most n) panics with an index out of range, however the cells
    it could reach are filled first. *)
Theorem fibRecursiveCache_short_slice_panics (n : Z) (fuel : nat) (s : list Z) :
  1 <= n <= int_max -> Z.of_nat (length s) <= n -> (Z.to_nat n <= fuel)%nat ->
  fibRecursiveCache fuel n s = Panic IndexOutOfRange.
Proof. apply CacheFrame.fibRecursiveCache_short. Qed.

Lemma fibRecursiveCache_short_slice_panics_witness :
  (1 <= 3 <= int_max) /\ Z.of_nat (length [0; 0; 0]) <= 3 /\ (Z.to_nat 3 <= 3)%nat
  /\ fibRecursiveCache 3 3 [0; 0; 0] = Panic IndexOutOfRange.
Proof.
  assert (1 <= 3 <= int_max) as Hn by int_range.
  assert (Z.of_nat (length [0; 0; 0]) <= 3) as Hlen by (simpl; lia).
  assert (Z.to_nat 3 <= 3)%nat as Hf by lia.
  split; [exact Hn|]. split; [exact Hlen|]. split; [exact Hf|].
  exact (fibRecursiveCache_short_slice_panics 3 3 [0; 0; 0] Hn Hlen Hf).
Defined.

(** X10. [FibRecursiveCache] returns no value on a negative argument: at -1
    the slice is empty and the write of index 0 panics, and below -1 the
    length n+1 is negative and [make] panics.  The helper itself, given a
    slice of at least two cells, accepts every n < 2 and writes 0 and 1 into
    the first two cells. *)
Theorem FibRecursiveCache_negative_panics (n : Z) (fuel : nat) :
  int_min <= n < 0 -> (1 <= fuel)%nat ->
  (n = -1 -> FibRecursiveCache fuel n = Panic IndexOutOfRange)
  /\ (n <= -2 -> FibRecursiveCache fuel n = Panic LenOutOfRange)
  /\ (forall s : list Z, (2 <= length s)%nat ->
        fibRecursiveCache fuel n s = Ok (tt, <[1%nat := 1]> (<[0%nat := 0]> s))).
Proof.
  intros Hn Hf. destruct fuel as [|fuel]; [lia|]. split; [|split].
  - intros ->. reflexivity.
  - intros H2. unfold FibRecursiveCache.
    assert (add64 n 1 = n + 1) as -> by (apply add64_small; range_lia).
    unfold make_slice.
    now assert ((n + 1 <? 0) = true) as -> by (apply Z.ltb_lt; lia).
  - intros s Hs. apply CacheFrame.fibRecursiveCache_base; lia.
Qed.

Lemma FibRecursiveCache_negative_panics_witness :
  (int_min <= -5 < 0) /\ (1 <= 1)%nat
  /\ FibRecursiveCache 1 (-5) = Panic LenOutOfRange.
Proof.
  assert (int_min <= -5 < 0) as Hn by range_lia.
  assert (1 <= 1)%nat as Hf by lia.
  split; [exact Hn|]. split; [exact Hf|].
  destruct (FibRecursiveCache_negative_panics (-5) 1 Hn Hf) as (_ & H & _).
  apply H. lia.
Defined.

(** ** The matrix procedures on any matrix and any exponent *)

Module MatrixFrame.

Lemma dot64_wrap_l a b c d :
  wrap (wrap a * b + wrap c * d) = wrap (a * b + c * d).
Proof.
  destruct (wrap_spec a) as [ka ->]. destruct (wrap_spec c) as [kc ->].
  apply (wrap_congr _ _ (ka * b + kc * d)). lia.
Qed.

Lemma wrap_mat_mul_l a b :
  wrap_mat (mat_mul (wrap_mat a) b) = wrap_mat (mat_mul a b).
Proof.
  unfold wrap_mat, mat_mul. cbn [aget r0 r1 c0 c1].
  now rewrite !dot64_wrap_l.
Qed.

(** Loop invariant of [fibPower] for any start matrix [f]: the cell of [F]
    holds [f] times a power of the base matrix. *)
Lemma fibPower_loop_from Fp Mp f n fuel : forall i k (h : heap),
  Fp <> Mp ->
  h !! Fp = Some (wrap_mat (mat_mul f (mat_pow base_matrix k))) ->
  h !! Mp = Some base_matrix ->
  0 <= i -> n < int_max -> (Z.to_nat (n + 1 - i) < fuel)%nat ->
  fibPower_loop fuel Fp Mp n i h
  = Ok (tt, <[Fp := wrap_mat (mat_mul f (mat_pow base_matrix
                                           (k + Z.to_nat (n + 1 - i))))]> h).
Proof.
  induction fuel as [|fuel IH]; intros i k h Hne HF HM Hi Hn Hf; [lia|].
  rewrite MatrixPower.fibPower_loop_unfold. destruct (i <=? n) eqn:E.
  - apply Z.leb_le in E.
    rewrite (MatrixPower.bind_ok _ _ _ _ _ (Matrix.fibMultiply_spec _ _ _ _ _ HF HM)).
    rewrite Matrix.wrap_mat_mul_base, Matrix.mat_mul_assoc.
    change (mat_mul (mat_pow base_matrix k) base_matrix)
      with (mat_pow base_matrix (S k)).
    rewrite Scalar.succ_in_range by lia.
    rewrite (IH (i + 1) (S k)); try lia; try assumption.
    + rewrite insert_insert_eq.
      replace (S k + Z.to_nat (n + 1 - (i + 1)))%nat
        with (k + Z.to_nat (n + 1 - i))%nat by lia.
      reflexivity.
    + apply lookup_insert_eq.
    + now rewrite lookup_insert_ne.
  - apply Z.leb_gt in E.
    replace (Z.to_nat (n + 1 - i)) with 0%nat by lia.
    rewrite Nat.add_0_r, insert_id by assumption. reflexivity.
Qed.

End MatrixFrame.

(** X11. [fibPower(F, n)] on any matrix f: one local matrix is allocated; for
    n < 2 the matrix behind [F] is left as it was, and for n >= 2 it becomes
    f times the (n-1)-th power of [[1,1],[1,0]], in 64-bit arithmetic.  No
    other cell that existed before is changed. *)
Theorem fibPower_multiplies_by_power
    (n : Z) (fuel : nat) (Fp : ptr) (f : arr22) (h : heap) :
  h !! Fp = Some f -> n < int_max -> (Z.to_nat (n - 1) < fuel)%nat ->
  exists (Mp : ptr) (h' : heap),
    fibPower fuel Fp n h = Ok (tt, h')
    /\ h !! Mp = None /\ h' !! Mp = Some base_matrix
    /\ h' !! Fp = Some (if n <? 2 then f
                        else wrap_mat (mat_mul f (mat_pow base_matrix (Z.to_nat (n - 1)))))
    /\ (forall p, p <> Fp -> p <> Mp -> h' !! p = h !! p).
Proof.
  intros HF Hn Hf. unfold fibPower.
  destruct (alloc_fresh base_matrix h) as (Mp & Halloc & Hnew).
  rewrite (bind_ok _ _ _ _ _ Halloc).
  assert (Fp <> Mp) as Hne by congruence.
  exists Mp. destruct fuel as [|fuel]; [lia|].
  rewrite fibPower_loop_unfold. destruct (Z.ltb_spec n 2) as [E | E].
  - assert ((2 <=? n) = false) as -> by (apply Z.leb_gt; lia).
    eexists. split; [reflexivity|]. split; [assumption|].
    split; [apply lookup_insert_eq|]. split.
    + now rewrite lookup_insert_ne by congruence.
    + intros p _ Hp. now rewrite lookup_insert_ne by congruence.
  - assert ((2 <=? n) = true) as -> by (apply Z.leb_le; lia).
    assert (<[Mp := base_matrix]> h !! Fp = Some f) as HF0
      by now rewrite lookup_insert_ne by congruence.
    assert (<[Mp := base_matrix]> h !! Mp = Some base_matrix) as HM0
      by apply lookup_insert_eq.
    rewrite (bind_ok _ _ _ _ _ (fibMultiply_spec _ _ _ _ _ HF0 HM0)).
    replace (mat_mul f base_matrix) with (mat_mul f (mat_pow base_matrix 1))
      by now rewrite mat_pow_1.
    change (add64 2 1) with 3.
    rewrite (MatrixFrame.fibPower_loop_from Fp Mp f n fuel 3 1); try lia; try assumption.
    + rewrite insert_insert_eq.
      eexists. split; [reflexivity|]. split; [assumption|]. split; [|split].
      * now rewrite lookup_insert_ne by congruence.
      * rewrite lookup_insert_eq.
        now replace (1 + Z.to_nat (n + 1 - 3))%nat with (Z.to_nat (n - 1)) by lia.
      * intros p Hp HpM. now rewrite !lookup_insert_ne by congruence.
    + apply lookup_insert_eq.
    + rewrite lookup_insert_ne by congruence. apply lookup_insert_eq.
Qed.

Lemma fibPower_multiplies_by_power_witness :
  ({[ 4%nat := Arr (Row 2 0) (Row 0 2) ]} : heap) !! 4%nat
  = Some (Arr (Row 2 0) (Row 0 2))
  /\ 3 < int_max /\ (Z.to_nat (3 - 1) < 3)%nat
  /\ exists (Mp : ptr) (h' : heap),
       fibPower 3 4 3 {[ 4%nat := Arr (Row 2 0) (Row 0 2) ]} = Ok (tt, h')
       /\ h' !! Mp = Some base_matrix.
Proof.
  assert (({[ 4%nat := Arr (Row 2 0) (Row 0 2) ]} : heap) !! 4%nat
          = Some (Arr (Row 2 0) (Row 0 2))) as HF by apply lookup_singleton_eq.
  assert (3 < int_max) as Hn by int_range.
  assert (Z.to_nat (3 - 1) < 3)%nat as Hf by lia.
  split; [exact HF|]. split; [exact Hn|]. split; [exact Hf|].
  destruct (fibPower_multiplies_by_power 3 3 4 _ _ HF Hn Hf)
    as (Mp & h' & Hrun & _ & HM & _).
  exists Mp, h'. split; [exact Hrun | exact HM].
Defined.

(** X12. Started on the base matrix with an exponent n >= 1, [fibPower] and
    [fibPowerRecursive] leave the same matrix behind [F], all four entries:
    [[F(n+1), F(n)], [F(n), F(n-1)]] reduced to 64 bits. *)
Theorem power_procedures_leave_fibonacci_matrix
    (n : Z) (fuel : nat) (Fp : ptr) (h : heap) :
  h !! Fp = Some base_matrix -> 1 <= n < int_max ->
  (Z.to_nat n <= fuel)%nat -> (64 <= fuel)%nat ->
  exists h1 h2 : heap,
    fibPower fuel Fp n h = Ok (tt, h1)
    /\ fibPowerRecursive fuel Fp n h = Ok (tt, h2)
    /\ h1 !! Fp = Some (wrap_mat (Arr (Row (F (n + 1)) (F n)) (Row (F n) (F (n - 1)))))
    /\ h2 !! Fp = h1 !! Fp.
Proof.
  intros HF Hn Hf H64.
  destruct (fibPower_spec fuel Fp n h HF) as (h1 & Hrun1 & HF1); [lia | lia |].
  pose proof (int_max_lt_pow2 fuel H64) as Hp.
  destruct fuel as [|depth]; [lia|]. cbn [pred] in Hp.
  destruct (fibPowerRecursive_spec depth Fp n h HF) as (h2 & Hrun2 & HF2 & _);
    [lia | lia |].
  exists h1, h2. split; [exact Hrun1|]. split; [exact Hrun2|].
  replace (Z.to_nat (Z.max n 1)) with (S (Z.to_nat (n - 1))) in HF2 by lia.
  rewrite HF2, HF1, mat_pow_fib. split; [|reflexivity].
  unfold F.
  replace (Z.to_nat (n + 1)) with (S (S (Z.to_nat (n - 1)))) by lia.
  replace (Z.to_nat n) with (S (Z.to_nat (n - 1))) by lia.
  reflexivity.
Qed.

Lemma power_procedures_leave_fibonacci_matrix_witness :
  ({[ 0%nat := base_matrix ]} : heap) !! 0%nat = Some base_matrix
  /\ (1 <= 30 < int_max) /\ (Z.to_nat 30 <= 64)%nat /\ (64 <= 64)%nat
  /\ exists h1 h2 : heap,
       fibPower 64 0 30 {[ 0%nat := base_matrix ]} = Ok (tt, h1)
       /\ fibPowerRecursive 64 0 30 {[ 0%nat := base_matrix ]} = Ok (tt, h2)
       /\ h2 !! 0%nat = h1 !! 0%nat.
Proof.
  assert (({[ 0%nat := base_matrix ]} : heap) !! 0%nat = Some base_matrix) as HF
    by apply lookup_singleton_eq.
  assert (1 <= 30 < int_max) as Hn by int_range.
  assert (Z.to_nat 30 <= 64)%nat as Hf by lia.
  assert (64 <= 64)%nat as H64 by lia.
  split; [exact HF|]. split; [exact Hn|]. split; [exact Hf|]. split; [exact H64|].
  destruct (power_procedures_leave_fibonacci_matrix 30 64 0 _ HF Hn Hf H64)
    as (h1 & h2 & Hr1 & Hr2 & _ & Heq).
  exists h1, h2. split; [exact Hr1|]. split; [exact Hr2 | exact Heq].
Defined.

Module RecursionEdge.

Lemma dot64_wrap_r a b c d :
  wrap (a * wrap b + c * wrap d) = wrap (a * b + c * d).
Proof.
  destruct (wrap_spec b) as [kb ->]. destruct (wrap_spec d) as [kd ->].
  apply (wrap_congr _ _ (a * kb + c * kd)). lia.
Qed.

Lemma wrap_mat_mul_r a b :
  wrap_mat (mat_mul a (wrap_mat b)) = wrap_mat (mat_mul a b).
Proof.
  unfold wrap_mat, mat_mul. cbn [aget r0 r1 c0 c1].
  now rewrite !dot64_wrap_r.
Qed.

(** Go's truncated halving of any [int]: no wrap-around, and the absolute
    value is halved. *)
Lemma quot2_any n :
  in_range n ->
  quot64 n 2 = Z.quot n 2 /\ in_range (Z.quot n 2)
  /\ Z.abs (Z.quot n 2) = Z.abs n / 2.
Proof.
  intros Hn.
  assert (in_range (Z.quot n 2) /\ Z.abs (Z.quot n 2) = Z.abs n / 2) as [Hr Ha].
  { destruct (Z.le_gt_cases 0 n) as [H0 | H0].
    - rewrite Z.quot_div_nonneg by lia.
      pose proof (Z.div_mod n 2). pose proof (Z.mod_pos_bound n 2).
      rewrite (Z.abs_eq n) by lia. split; [range_lia | lia].
    - assert (Z.quot n 2 = - (- n / 2)) as ->.
      { replace n with (- (- n)) at 1 by lia.
        now rewrite Z.quot_opp_l, Z.quot_div_nonneg by lia. }
      pose proof (Z.div_mod (- n) 2). pose proof (Z.mod_pos_bound (- n) 2).
      rewrite (Z.abs_neq n) by lia. split; [range_lia | lia]. }
  split; [now apply wrap_small | split; assumption].
Qed.

Lemma fibPowerRecursive_returns_any depth : forall Fp n (h : heap),
  is_Some (h !! Fp) -> in_range n -> Z.abs n < 2 ^ Z.of_nat depth ->
  exists h', fibPowerRecursive (S depth) Fp n h = Ok (tt, h')
             /\ forall p, is_Some (h !! p) -> is_Some (h' !! p).
Proof.
  induction depth as [|depth IH]; intros Fp n h HF Hn Hd;
    rewrite MatrixPower.fibPowerRecursive_unfold;
    destruct ((n =? 0) || (n =? 1)) eqn:E.
  1, 3: exists h; split; [reflexivity | auto].
  - apply orb_false_iff in E. rewrite !Z.eqb_neq in E.
    change (2 ^ Z.of_nat 0) with 1 in Hd. lia.
  - destruct (Matrix.alloc_fresh base_matrix h) as (Mp & Halloc & _).
    rewrite (MatrixPower.bind_ok _ _ _ _ _ Halloc).
    destruct (quot2_any n Hn) as (-> & Hqr & Hqa).
    destruct (IH Fp (Z.quot n 2) (<[Mp := base_matrix]> h)) as (h1 & Hrun & Hkeep1).
    { now apply Termination.insert_keeps. }
    { assumption. }
    { rewrite Hqa. apply MatrixPowerRecursive.half_lt_pow2. lia. }
    rewrite (MatrixPower.bind_ok _ _ _ _ _ Hrun).
    assert (forall p, is_Some (h !! p) -> is_Some (h1 !! p)) as Hkeep
      by (intros p Hp; now apply Hkeep1, Termination.insert_keeps).
    assert (is_Some (h1 !! Mp)) as HM1
      by (apply Hkeep1; rewrite lookup_insert_eq; eauto).
    destruct (Termination.fibMultiply_returns Fp Fp h1) as (h2 & Hsq & Hkeep2); auto.
    rewrite (MatrixPower.bind_ok _ _ _ _ _ Hsq).
    destruct (negb (rem64 n 2 =? 0)).
    + destruct (Termination.fibMultiply_returns Fp Mp h2) as (h3 & Hmul & Hkeep3); auto.
      exists h3. split; [assumption | auto].
    + exists h2. split; [reflexivity | auto].
Qed.

Lemma log2_half n : 2 <= n -> Z.log2 n = Z.log2 (n / 2) + 1.
Proof.
  intros Hn. pose proof (Z.div_mod n 2) as Hdm.
  pose proof (Z.mod_pos_bound n 2) as Hmb.
  remember (n / 2) as q eqn:Eq.
  assert (n = 2 * q \/ n = 2 * q + 1) as [H | H] by lia; rewrite H.
  - rewrite Z.log2_double by lia. lia.
  - rewrite Z.log2_succ_double by lia. lia.
Qed.

(** Every call outside the base cases declares one local matrix: the store
    grows by one cell per halving of the exponent. *)
Lemma fibPowerRecursive_cells depth : forall Fp n (h : heap),
  is_Some (h !! Fp) -> 0 <= n <= int_max -> n < 2 ^ Z.of_nat depth ->
  exists h', fibPowerRecursive (S depth) Fp n h = Ok (tt, h')
             /\ (forall p, is_Some (h !! p) -> is_Some (h' !! p))
             /\ size h' = (size h + Z.to_nat (Z.log2 n))%nat.
Proof.
  induction depth as [|depth IH]; intros Fp n h HF Hn Hd;
    rewrite MatrixPower.fibPowerRecursive_unfold;
    destruct ((n =? 0) || (n =? 1)) eqn:E.
  1, 3: apply orb_true_iff in E; rewrite !Z.eqb_eq in E;
        exists h; split; [reflexivity|]; split; [auto|];
        destruct E as [-> | ->]; cbn; lia.
  - apply orb_false_iff in E. rewrite !Z.eqb_neq in E.
    change (2 ^ Z.of_nat 0) with 1 in Hd. lia.
  - apply orb_false_iff in E. rewrite !Z.eqb_neq in E.
    destruct (Matrix.alloc_fresh base_matrix h) as (Mp & Halloc & Hnew).
    rewrite (MatrixPower.bind_ok _ _ _ _ _ Halloc).
    assert (Fp <> Mp) as Hne by (intros ->; rewrite Hnew in HF; now destruct HF).
    rewrite MatrixPowerRecursive.half_nonneg by lia.
    destruct (IH Fp (n / 2) (<[Mp := base_matrix]> h))
      as (h1 & Hrun & Hkeep1 & Hsize1).
    { now apply Termination.insert_keeps. }
    { pose proof (MatrixPowerRecursive.half_lt n). lia. }
    { apply MatrixPowerRecursive.half_lt_pow2. lia. }
    rewrite (MatrixPower.bind_ok _ _ _ _ _ Hrun).
    rewrite map_size_insert_None in Hsize1 by assumption.
    assert (forall p, is_Some (h !! p) -> is_Some (h1 !! p)) as Hkeep
      by (intros p Hp; now apply Hkeep1, Termination.insert_keeps).
    destruct (Hkeep Fp HF) as [f1 HF1].
    destruct (Hkeep1 Mp) as [m1 HM1]; [rewrite lookup_insert_eq; eauto|].
    rewrite (MatrixPower.bind_ok _ _ _ _ _ (Matrix.fibMultiply_spec _ _ _ _ _ HF1 HF1)).
    pose proof (log2_half n ltac:(lia)) as Hlog.
    pose proof (Z.log2_nonneg (n / 2)) as Hnn.
    destruct (negb (rem64 n 2 =? 0)).
    + erewrite Matrix.fibMultiply_spec;
        [| apply lookup_insert_eq | rewrite lookup_insert_ne by congruence; exact HM1].
      eexists. split; [reflexivity|]. split.
      * intros p Hp. now apply Termination.insert_keeps, Termination.insert_keeps, Hkeep.
      * rewrite insert_insert_eq, map_size_insert_Some by eauto. lia.
    + eexists. split; [reflexivity|]. split.
      * intros p Hp. now apply Termination.insert_keeps, Hkeep.
      * rewrite map_size_insert_Some by eauto. lia.
Qed.

(** With the largest [int] as bound, the test [i <= n] of [fibPower] holds
    for every counter, also after [i++] has wrapped. *)
Lemma fibPower_loop_forever Fp Mp fuel : forall i (h : heap),
  in_range i -> is_Some (h !! Fp) -> is_Some (h !! Mp) ->
  fibPower_loop fuel Fp Mp int_max i h = OutOfFuel.
Proof.
  induction fuel as [|fuel IH]; intros i h Hi HF HM; [reflexivity|].
  rewrite MatrixPower.fibPower_loop_unfold.
  assert ((i <=? int_max) = true) as -> by (apply Z.leb_le; apply Hi).
  destruct (Termination.fibMultiply_returns Fp Mp h HF HM) as (h' & Hrun & Hkeep).
  rewrite (MatrixPower.bind_ok _ _ _ _ _ Hrun).
  apply IH; [apply wrap_range | auto | auto].
Qed.

End RecursionEdge.

(** X13. [fibPowerRecursive] returns on every [int] exponent, negative ones
    included: Go's division truncates toward zero, so halving reaches 0 from
    either side; 65 levels of recursion always suffice.  Hence
    [FibPowerMatrixRecursive] returns a value on every [int] argument. *)
Theorem fibPowerRecursive_returns_on_every_int
    (n : Z) (fuel : nat) (Fp : ptr) (h : heap) :
  in_range n -> is_Some (h !! Fp) -> (65 <= fuel)%nat ->
  (exists h' : heap, fibPowerRecursive fuel Fp n h = Ok (tt, h'))
  /\ (exists v, value (FibPowerMatrixRecursive fuel n h) = Ok v).
Proof.
  intros Hn HF Hf.
  assert (forall m, in_range m -> Z.abs m < 2 ^ Z.of_nat (pred fuel)) as Hdepth.
  { intros m Hm. pose proof (pow2_mono 64 (pred fuel) ltac:(lia)) as P.
    change (2 ^ Z.of_nat 64) with 18446744073709551616 in P. range_lia. }
  destruct fuel as [|depth]; [lia|]. cbn [pred] in Hdepth. split.
  - destruct (RecursionEdge.fibPowerRecursive_returns_any depth Fp n h HF Hn (Hdepth n Hn))
      as (h' & Hrun & _).
    now exists h'.
  - unfold FibPowerMatrixRecursive.
    destruct (alloc_fresh base_matrix h) as (Fq & Halloc & _).
    rewrite (bind_ok _ _ _ _ _ Halloc).
    destruct (n =? 0); [exists 0; reflexivity|].
    destruct (RecursionEdge.fibPowerRecursive_returns_any depth Fq (sub64 n 1)
                (<[Fq := base_matrix]> h)) as (h' & Hrun & Hkeep).
    { rewrite lookup_insert_eq. eauto. }
    { apply wrap_range. }
    { apply Hdepth, wrap_range. }
    rewrite (bind_ok _ _ _ _ _ Hrun).
    destruct (Hkeep Fq) as [f Hf']; [rewrite lookup_insert_eq; eauto|].
    rewrite (bind_ok _ _ _ _ _ (load_ok _ _ _ Hf')).
    exists (aget f 0 0). reflexivity.
Qed.

Lemma fibPowerRecursive_returns_on_every_int_witness :
  in_range (-5) /\ is_Some (({[ 0%nat := base_matrix ]} : heap) !! 0%nat)
  /\ (65 <= 65)%nat
  /\ exists h' : heap,
       fibPowerRecursive 65 0 (-5) {[ 0%nat := base_matrix ]} = Ok (tt, h').
Proof.
  assert (in_range (-5)) as Hn by range_lia.
  assert (is_Some (({[ 0%nat := base_matrix ]} : heap) !! 0%nat)) as HF
    by (exists base_matrix; apply lookup_singleton_eq).
  assert (65 <= 65)%nat as Hf by lia.
  split; [exact Hn|]. split; [exact HF|]. split; [exact Hf|].
  exact (proj1 (fibPowerRecursive_returns_on_every_int (-5) 65 0 _ Hn HF Hf)).
Defined.

(** X14. For an exponent n >= 0, [fibPowerRecursive] declares exactly
    floor(log2 n) local matrices (none for n <= 1): the store grows by that
    many cells, one per call outside the base cases. *)
Theorem fibPowerRecursive_allocates_log2_cells
    (n : Z) (fuel : nat) (Fp : ptr) (h : heap) :
  0 <= n <= int_max -> is_Some (h !! Fp) -> (64 <= fuel)%nat ->
  exists h' : heap,
    fibPowerRecursive fuel Fp n h = Ok (tt, h')
    /\ size h' = (size h + Z.to_nat (Z.log2 n))%nat.
Proof.
  intros Hn HF Hf. pose proof (int_max_lt_pow2 fuel Hf) as Hp.
  destruct fuel as [|depth]; [lia|]. cbn [pred] in Hp.
  destruct (RecursionEdge.fibPowerRecursive_cells depth Fp n h HF Hn)
    as (h' & Hrun & _ & Hsize); [lia|].
  now exists h'.
Qed.

Lemma fibPowerRecursive_allocates_log2_cells_witness :
  (0 <= 1024 <= int_max)
  /\ is_Some (({[ 0%nat := base_matrix ]} : heap) !! 0%nat)
  /\ (64 <= 64)%nat
  /\ exists h' : heap,
       fibPowerRecursive 64 0 1024 {[ 0%nat := base_matrix ]} = Ok (tt, h')
       /\ size h' = (size ({[ 0%nat := base_matrix ]} : heap)
                     + Z.to_nat (Z.log2 1024))%nat.
Proof.
  assert (0 <= 1024 <= int_max) as Hn by int_range.
  assert (is_Some (({[ 0%nat := base_matrix ]} : heap) !! 0%nat)) as HF
    by (exists base_matrix; apply lookup_singleton_eq).
  assert (64 <= 64)%nat as Hf by lia.
  split; [exact Hn|]. split; [exact HF|]. split; [exact Hf|].
  exact (fibPowerRecursive_allocates_log2_cells 1024 64 0 _ Hn HF Hf).
Defined.

(** X15. With the largest [int] as exponent the loop of [fibPower] never
    ends: its test [i <= n] is true for every value of the counter, which
    wraps around.  [FibPowerMatrix] reaches this at the smallest [int], whose
    predecessor wraps to the largest: no amount of fuel yields a result. *)
Theorem fibPower_loops_forever_at_max_int (fuel : nat) (Fp : ptr) (h : heap) :
  is_Some (h !! Fp) ->
  fibPower fuel Fp int_max h = OutOfFuel
  /\ FibPowerMatrix fuel int_min h = OutOfFuel.
Proof.
  assert (forall (q : ptr) (h0 : heap), is_Some (h0 !! q) ->
            fibPower fuel q int_max h0 = OutOfFuel) as Hloop.
  { intros q h0 Hq. unfold fibPower.
    destruct (alloc_fresh base_matrix h0) as (Mp & Halloc & _).
    rewrite (bind_ok _ _ _ _ _ Halloc).
    apply RecursionEdge.fibPower_loop_forever.
    - range_lia.
    - now apply insert_keeps.
    - rewrite lookup_insert_eq. eauto. }
  intros HF. split; [now apply Hloop|].
  unfold FibPowerMatrix.
  destruct (alloc_fresh base_matrix h) as (Fq & Halloc & _).
  rewrite (bind_ok _ _ _ _ _ Halloc).
  change (int_min =? 0) with false. cbv iota.
  change (sub64 int_min 1) with int_max.
  unfold bind at 1. rewrite Hloop; [reflexivity|].
  rewrite lookup_insert_eq. eauto.
Qed.

Lemma fibPower_loops_forever_at_max_int_witness :
  is_Some (({[ 0%nat := base_matrix ]} : heap) !! 0%nat)
  /\ fibPower 500 0 int_max {[ 0%nat := base_matrix ]} = OutOfFuel.
Proof.
  assert (is_Some (({[ 0%nat := base_matrix ]} : heap) !! 0%nat)) as HF
    by (exists base_matrix; apply lookup_singleton_eq).
  split; [exact HF|].
  exact (proj1 (fibPower_loops_forever_at_max_int 500 0 _ HF)).
Defined.

(** X16. [FibPowerMatrix] returns 1 for every argument n <= 2 other than 0
    and the smallest [int], negative arguments included: the loop of
    [fibPower] does not run and the top-left entry of the base matrix is
    returned. *)
Theorem FibPowerMatrix_one_up_to_two (n : Z) (fuel : nat) (h : heap) :
  int_min < n <= 2 -> n <> 0 -> (1 <= fuel)%nat ->
  value (FibPowerMatrix fuel n h) = Ok 1.
Proof.
  intros Hn Hnz Hf. unfold FibPowerMatrix.
  destruct (alloc_fresh base_matrix h) as (Fq & Halloc & _).
  rewrite (bind_ok _ _ _ _ _ Halloc).
  assert ((n =? 0) = false) as -> by now apply Z.eqb_neq.
  assert (sub64 n 1 = n - 1) as -> by (apply sub64_small; range_lia).
  destruct (fibPower_spec fuel Fq (n - 1) (<[Fq := base_matrix]> h))
    as (h' & Hrun & HF'); [apply lookup_insert_eq | range_lia | lia |].
  rewrite (bind_ok _ _ _ _ _ Hrun), (bind_ok _ _ _ _ _ (load_ok _ _ _ HF')).
  replace (Z.to_nat (n - 1 - 1)) with 0%nat by lia. reflexivity.
Qed.

Lemma FibPowerMatrix_one_up_to_two_witness :
  (int_min < -4 <= 2) /\ -4 <> 0 /\ (1 <= 1)%nat
  /\ value (FibPowerMatrix 1 (-4) ∅) = Ok 1.
Proof.
  assert (int_min < -4 <= 2) as Hn by range_lia.
  assert (-4 <> 0) as Hnz by lia.
  assert (1 <= 1)%nat as Hf by lia.
  split; [exact Hn|]. split; [exact Hnz|]. split; [exact Hf|].
  exact (FibPowerMatrix_one_up_to_two (-4) 1 ∅ Hn Hnz Hf).
Defined.

(** X17. In-place multiplications compose as matrix products, wrap-around
    notwithstanding: multiplying the matrix behind [F] by [M] and then by [N]
    leaves the same store as multiplying it once by a matrix that holds the
    64-bit product of [M] and [N]. *)
Theorem fibMultiply_twice_is_product
    (Fp Mp Np Pp : ptr) (f m n : arr22) (h : heap) :
  Fp <> Mp -> Fp <> Np -> Fp <> Pp ->
  h !! Fp = Some f -> h !! Mp = Some m -> h !! Np = Some n ->
  h !! Pp = Some (wrap_mat (mat_mul m n)) ->
  (run fibMultiply Fp Mp then fibMultiply Fp Np) h
  = Ok (tt, <[Fp := wrap_mat (mat_mul f (mat_mul m n))]> h)
  /\ fibMultiply Fp Pp h = (run fibMultiply Fp Mp then fibMultiply Fp Np) h.
Proof.
  intros HM HN HP HF Hm Hn Hp.
  assert ((run fibMultiply Fp Mp then fibMultiply Fp Np) h
          = Ok (tt, <[Fp := wrap_mat (mat_mul f (mat_mul m n))]> h)) as E.
  { rewrite (bind_ok _ _ _ _ _ (fibMultiply_spec _ _ _ _ _ HF Hm)).
    erewrite fibMultiply_spec;
      [| apply lookup_insert_eq | rewrite lookup_insert_ne by congruence; exact Hn].
    now rewrite insert_insert_eq, MatrixFrame.wrap_mat_mul_l, mat_mul_assoc. }
  split; [exact E|]. rewrite E.
  rewrite (fibMultiply_spec _ _ _ _ _ HF Hp).
  now rewrite RecursionEdge.wrap_mat_mul_r.
Qed.

Lemma fibMultiply_twice_is_product_witness :
  (0 <> 1)%nat /\ (0 <> 2)%nat
  /\ ({[ 0%nat := Arr (Row 1 2) (Row 3 4); 1%nat := base_matrix;
        2%nat := Arr (Row 2 1) (Row 1 1) ]} : heap) !! 0%nat
     = Some (Arr (Row 1 2) (Row 3 4))
  /\ (run fibMultiply 0 1 then fibMultiply 0 1)
       ({[ 0%nat := Arr (Row 1 2) (Row 3 4); 1%nat := base_matrix;
        2%nat := Arr (Row 2 1) (Row 1 1) ]} : heap)
     = fibMultiply 0 2
       ({[ 0%nat := Arr (Row 1 2) (Row 3 4); 1%nat := base_matrix;
        2%nat := Arr (Row 2 1) (Row 1 1) ]} : heap).
Proof.
  set (h := ({[ 0%nat := Arr (Row 1 2) (Row 3 4); 1%nat := base_matrix;
        2%nat := Arr (Row 2 1) (Row 1 1) ]} : heap)).
  assert (0 <> 1)%nat as H01 by lia.
  assert (0 <> 2)%nat as H02 by lia.
  assert (h !! 0%nat = Some (Arr (Row 1 2) (Row 3 4))) as HF by reflexivity.
  assert (h !! 1%nat = Some base_matrix) as HM by reflexivity.
  assert (h !! 2%nat = Some (wrap_mat (mat_mul base_matrix base_matrix))) as HP
    by reflexivity.
  split; [exact H01|]. split; [exact H02|]. split; [exact HF|].
  symmetry.
  exact (proj2 (fibMultiply_twice_is_product 0 1 1 2 _ _ _ h H01 H01 H02 HF HM HM HP)).
Defined.
